(** * LatticeQuant: plot_reconstructed_codebook.py

    A shallow embedding of [compare_codebooks] and [plot_with_voronoi]
    from [src/plot_reconstructed_codebook.py], and the properties of the
    cross-validation sweep and of the shaping-region polygons.

    Number model.  Python ints are [Z].  NumPy/Python floats are idealised
    as exact rationals in canonical form ([Qc]): two floats are [==] in
    Python exactly when the two [Qc] are Leibniz-equal, which is what a
    dict lookup on a tuple of floats needs.  Rounding error of binary64 is
    not modelled.

    Collaborators.  The two quantizer classes, the generator matrix, the
    nearest-point oracle, [scipy.spatial.Voronoi] and the draw of
    [np.random.normal] are not part of this file of the repository; they
    are parameters of the development ([Collaborators]). *)

From Stdlib Require Import ZArith QArith Qcanon Qround Qpower Qabs Lia Lqa.
From Stdlib Require Qcabs.
From stdpp Require Import base numbers option list gmap.

Local Open Scope Z_scope.

(** ** Python values, exceptions and the run monad *)

Inductive exn :=
  | ZeroDivisionError
  | TypeError
  | IndexError
  | ValueError
  | QhullError.

Inductive result (A : Type) :=
  | Ok (a : A)
  | Raise (e : exn).
Arguments Ok {A} a.
Arguments Raise {A} e.

(** A Python number is an int or a float; [q ** e] is an int for [e >= 0]
    and a float otherwise. *)
Inductive pynum :=
  | PyInt (z : Z)
  | PyFloat (x : Qc).

Definition to_float (v : pynum) : Qc :=
  match v with
  | PyInt z => Qc_of_Z z
  | PyFloat x => x
  end.

(** [b ** e] on ints. *)
Definition py_pow (b e : Z) : result pynum :=
  if decide (0 ≤ e) then Ok (PyInt (b ^ e))
  else if decide (b = 0) then Raise ZeroDivisionError
  else Ok (PyFloat (/ Qc_of_Z (b ^ (- e)))%Qc).

(** [a - b]. *)
Definition py_sub (a b : pynum) : pynum :=
  match a, b with
  | PyInt x, PyInt y => PyInt (x - y)
  | _, _ => PyFloat (to_float a - to_float b)%Qc
  end.

(** [a / b]: true division, always a float, raising on a zero divisor. *)
Definition py_truediv (a b : pynum) : result Qc :=
  if decide (to_float b = 0%Qc) then Raise ZeroDivisionError
  else Ok (to_float a / to_float b)%Qc.

(** [range(v)] accepts ints only. *)
Definition operator_index (v : pynum) : result Z :=
  match v with
  | PyInt z => Ok z
  | PyFloat _ => Raise TypeError
  end.

Definition range (n : Z) : list Z := Z.of_nat <$> seq 0 (Z.to_nat n).

(** [l[k]] for a Python list or the first axis of an array: negative
    indices count from the end, anything else out of range raises. *)
Definition getitem {A} (l : list A) (k : Z) : result A :=
  let len := Z.of_nat (length l) in
  let k' := if decide (k < 0) then k + len else k in
  if decide (0 ≤ k') then
    match l !! Z.to_nat k' with
    | Some x => Ok x
    | None => Raise IndexError
    end
  else Raise IndexError.

(** ** NumPy on 2-vectors *)

Definition point : Type := Qc * Qc.

Record matrix := Matrix { g00 : Qc; g01 : Qc; g10 : Qc; g11 : Qc }.

(** [np.absolute] *)
Definition np_absolute (x : Qc) : Qc := Qcabs.Qcabs x.

(** [np.dot(G, np.array([i, j]))] *)
Definition np_dot (G : matrix) (i j : Z) : point :=
  ((g00 G * Qc_of_Z i + g01 G * Qc_of_Z j)%Qc,
   (g10 G * Qc_of_Z i + g11 G * Qc_of_Z j)%Qc).

Definition np_add (a b : point) : point := ((a.1 + b.1)%Qc, (a.2 + b.2)%Qc).

(** [s * a] for a scalar [s]. *)
Definition np_scale (s : Qc) (a : point) : point := ((s * a.1)%Qc, (s * a.2)%Qc).

(** The default relative tolerance of [np.isclose] and [np.allclose]. *)
Definition rtol : Qc := Q2Qc 1e-5.

(** [np.isclose(a, b, atol=atol)] on scalars:
    [absolute(a - b) <= atol + rtol * absolute(b)]. *)
Definition np_isclose (atol : Qc) (a b : Qc) : bool :=
  bool_decide (np_absolute (a - b) ≤ atol + rtol * np_absolute b)%Qc.

(** [np.allclose(a, b, atol=atol)] on 2-vectors. *)
Definition np_allclose (atol : Qc) (a b : point) : bool :=
  np_isclose atol a.1 b.1 && np_isclose atol a.2 b.2.

(** [np.rint]: round to the nearest integer, ties to even. *)
Definition rint (x : Qc) : Z :=
  let f := Qfloor x in
  let frac := (x - Qc_of_Z f)%Qc in
  if decide (frac < Q2Qc 0.5)%Qc then f
  else if decide (Q2Qc 0.5 < frac)%Qc then f + 1
  else if Z.even f then f else f + 1.

(** [np.round(x, decimals)] for [decimals >= 0]: scale, [rint], unscale. *)
Definition np_round1 (decimals : nat) (x : Qc) : Qc :=
  (Qc_of_Z (rint (x * Qc_of_Z (10 ^ Z.of_nat decimals)))
     / Qc_of_Z (10 ^ Z.of_nat decimals))%Qc.

Definition np_round (decimals : nat) (a : point) : point :=
  (np_round1 decimals a.1, np_round1 decimals a.2).

(** [np.unique(points, axis=0)]: the distinct rows.  NumPy also sorts them;
    the caller only takes the length. *)
Definition np_unique (points : list point) : list point := remove_dups points.

Arguments np_round : simpl never.
Arguments np_allclose : simpl never.
Arguments np_add : simpl never.
Arguments np_dot : simpl never.
Arguments Q2Qc : simpl never.

(** ** What a run does to the outside world *)

Inductive line :=
  | UniquePoints (n : nat)               (* Number of unique points: n *)
  | DuplicatesFound                      (* Duplicate points found: *)
  | DupPoint (p : point)                 (* Point: p *)
  | DupOriginal (ij : Z * Z)             (* Original values: ij *)
  | DupDuplicate (ij : Z * Z)            (* Duplicate values: ij *)
  | AllUnique                            (* All points are unique. *)
  | MismatchesFound                      (* Mismatched points found: *)
  | MisOriginal (l_p : point)            (* Original point: l_p *)
  | MisNested (dec : point)              (* Nested quantizer decoding: dec *)
  | MisRegular (l_dec : point)           (* Regular quantizer decoding: l_dec *)
  | AllMatched.                          (* All points matched correctly. *)

Inductive colour := Green | Orange | Pink.

Inductive event :=
  | Construct_H (q : Z) (beta alpha : Qc) (M : Z)
  | Construct_N (q : Qc) (beta alpha : Qc)
  | Stdout (l : line)
  | Scatter (points : list point)
  | Plot (c : colour) (polygon : list point)
  | Savefig (M : Z).

(** A run: the events it produced, in order, and how it ended. *)
Definition py (A : Type) : Type := list event * result A.

#[global] Instance py_ret : MRet py := λ A a, ([], Ok a).

#[global] Instance py_bind : MBind py := λ A B k m,
  match m.2 with
  | Ok a => (m.1 ++ (k a).1, (k a).2)
  | Raise e => (m.1, Raise e)
  end.

Definition lift {A} (r : result A) : py A := ([], r).
Definition emit (e : event) : py unit := ([e], Ok tt).
Definition py_print (l : line) : py unit := emit (Stdout l).

(** [for x in xs: body(x)] where the body may py_print. *)
Fixpoint py_for {A} (xs : list A) (body : A → py unit) : py unit :=
  match xs with
  | [] => mret tt
  | x :: xs' => body x;; py_for xs' body
  end.

(** [for x in xs: st = body(x, st)] where the body only updates locals. *)
Definition for_each {A S} (xs : list A) (body : A → S → S) (st : S) : S :=
  foldl (λ s x, body x s) st xs.

(** ** Collaborators *)

(** What the code uses of a quantizer object. *)
Record Quantizer := {
  Repr : Type;
  _encode : point → Repr * bool;
  _decode : Repr → point
}.

(** A [scipy.spatial.Voronoi] object, as far as it is read. *)
Record voronoi := {
  point_region : list Z;
  vertices : list point;
  regions : list (list Z)
}.

Class Collaborators := {
  (** [HQuantizer(G, closest_point, q, beta, alpha, M)] *)
  HQuantizer : matrix → (point → point) → Z → Qc → Qc → Z → result Quantizer;
  (** [NQuantizer(G, closest_point, q, beta, alpha)] *)
  NQuantizer : matrix → (point → point) → Qc → Qc → Qc → result Quantizer;
  (** [Voronoi(points)] *)
  Voronoi : list point → result voronoi;
  (** the value of [np.random.normal(0, 1, size=2)] in this run *)
  np_random_normal : point
}.

(** ** compare_codebooks: the sweep (lines 51-77) *)

Record sweep_state := {
  lattice_points : list point;
  mismatches : list (point * point * point);
  matches : list (point * point);
  point_map : gmap point (Z * Z);
  duplicates : list (point * (Z * Z) * (Z * Z))
}.

Definition sweep_init : sweep_state :=
  {| lattice_points := []; mismatches := []; matches := [];
     point_map := ∅; duplicates := [] |}.

(** One encode/decode round trip. *)
Definition roundtrip (qz : Quantizer) (l_p : point) : point :=
  _decode qz (_encode qz l_p).1.

(** The body of the inner loop, lines 57-77. *)
Definition sweep_body (G : matrix) (h_quantizer n_quantizer : Quantizer)
    (d : point) (i j : Z) (st : sweep_state) : sweep_state :=
  let l_p := np_add (np_dot G i j) d in
  let dec := roundtrip h_quantizer l_p in
  let l_dec := roundtrip n_quantizer l_p in
  let '(mismatches', matches') :=
    if np_allclose (Q2Qc 1e-7) l_dec l_p then
      if negb (np_allclose (Q2Qc 1e-7) dec l_dec)
      then (mismatches st ++ [(l_p, dec, l_dec)], matches st)
      else (mismatches st, matches st ++ [(l_p, dec)])
    else (mismatches st, matches st) in
  let dec_tuple := np_round 9 dec in
  let '(point_map', duplicates') :=
    match point_map st !! dec_tuple with
    | Some first => (point_map st, duplicates st ++ [(dec_tuple, first, (i, j))])
    | None => (<[dec_tuple := (i, j)]> (point_map st), duplicates st)
    end in
  {| lattice_points := lattice_points st ++ [dec];
     mismatches := mismatches';
     matches := matches';
     point_map := point_map';
     duplicates := duplicates' |}.

(** The two nested loops, lines 55-77, for [q ** M = n]. *)
Definition compare_sweep (G : matrix) (h_quantizer n_quantizer : Quantizer)
    (d : point) (n : Z) : sweep_state :=
  for_each (range n) (λ i,
    for_each (range n) (λ j,
      sweep_body G h_quantizer n_quantizer d i j)) sweep_init.

(** ** compare_codebooks: the report (lines 79-98) *)

Definition report (st : sweep_state) : py unit :=
  py_print (UniquePoints (length (np_unique (lattice_points st))));;
  (match duplicates st with
   | [] => py_print AllUnique
   | _ =>
     py_print DuplicatesFound;;
     py_for (duplicates st) (λ '(dup_point, original_values, duplicate_values),
       py_print (DupPoint dup_point);;
       py_print (DupOriginal original_values);;
       py_print (DupDuplicate duplicate_values))
   end);;
  (match mismatches st with
   | [] => py_print AllMatched
   | _ =>
     py_print MismatchesFound;;
     py_for (mismatches st) (λ '(l_p, dec, l_dec),
       py_print (MisOriginal l_p);;
       py_print (MisNested dec);;
       py_print (MisRegular l_dec))
   end).

(** ** plot_with_voronoi *)

(** [np.where(np.isclose(points, [0, 0], atol=1e-2).all(axis=1))[0][0]] *)
Definition origin_index (points : list point) : result Z :=
  match list_find (λ p, np_allclose (Q2Qc 1e-2) p (0%Qc, 0%Qc) = true) points with
  | Some (k, _) => Ok (Z.of_nat k)
  | None => Raise IndexError
  end.

(** [a[idx]] for a list of row indices. *)
Fixpoint np_take {A} (a : list A) (idx : list Z) : result (list A) :=
  match idx with
  | [] => Ok []
  | k :: idx' =>
    match getitem a k with
    | Ok x =>
      match np_take a idx' with
      | Ok xs => Ok (x :: xs)
      | Raise e => Raise e
      end
    | Raise e => Raise e
    end
  end.

(** [np.vstack([vs, vs[0]])] *)
Definition close_polygon (vs : list point) : result (list point) :=
  match vs with
  | [] => Raise IndexError
  | v :: _ => Ok (vs ++ [v])
  end.

(** Lines 114-120: the three scaled, closed boundaries, in the order
    green (inner), pink (outer), orange (nominal) of their computation. *)
Definition shaping_polygons (q : Z) (r_qM : Qc) (M : Z) (cell : list point)
    : result (list point * list point * list point) :=
  match py_pow q M with
  | Raise e => Raise e
  | Ok qM =>
    let scaled_vertices_q_qm1 := np_scale (to_float qM * (1 - r_qM))%Qc <$> cell in
    let scaled_vertices_q_qp1 := np_scale (to_float qM * (1 + r_qM))%Qc <$> cell in
    let scaled_vertices_q2 := np_scale (to_float qM) <$> cell in
    match close_polygon scaled_vertices_q_qm1,
          close_polygon scaled_vertices_q_qp1,
          close_polygon scaled_vertices_q2 with
    | Ok inner, Ok outer, Ok nominal => Ok (inner, outer, nominal)
    | _, _, _ => Raise IndexError
    end
  end.

Section Run.
Context `{Collaborators}.

Definition new_HQuantizer (G : matrix) (closest_point : point → point)
    (q : Z) (beta alpha : Qc) (M : Z) : py Quantizer :=
  emit (Construct_H q beta alpha M);; lift (HQuantizer G closest_point q beta alpha M).

Definition new_NQuantizer (G : matrix) (closest_point : point → point)
    (q : Qc) (beta alpha : Qc) : py Quantizer :=
  emit (Construct_N q beta alpha);; lift (NQuantizer G closest_point q beta alpha).

Definition plot_with_voronoi (lattice_points : list point) (q : Z)
    (r_qM : Qc) (M : Z) : py unit :=
  (* lattice_points[:, 0] needs a 2-d array *)
  lift (match lattice_points with [] => Raise IndexError | _ => Ok tt end);;
  emit (Scatter lattice_points);;
  vor ← lift (Voronoi lattice_points);
  origin_idx ← lift (origin_index lattice_points);
  region_idx ← lift (getitem (point_region vor) origin_idx);
  region ← lift (getitem (regions vor) region_idx);
  cell ← lift (np_take (vertices vor) region);
  polys ← lift (shaping_polygons q r_qM M cell);
  emit (Plot Green polys.1.1);;
  emit (Plot Orange polys.2);;
  emit (Plot Pink polys.1.2);;
  emit (Savefig M).

(** Line 46: [r_q = (1 - q**(1-M)) / (q - 1)] *)
Definition overlap_fraction (q M : Z) : result Qc :=
  match py_pow q (1 - M) with
  | Ok p => py_truediv (py_sub (PyInt 1) p) (PyInt (q - 1))
  | Raise e => Raise e
  end.

Definition compare_codebooks (G : matrix) (closest_point : point → point)
    (q M : Z) (with_plot : bool) : py unit :=
  r_q ← lift (overlap_fraction q M);
  h_quantizer ← new_HQuantizer G closest_point q 1%Qc 1%Qc M;
  qM ← lift (py_pow q M);
  n_quantizer ← new_NQuantizer G closest_point (to_float qM * (1 - r_q))%Qc 1%Qc 1%Qc;
  let d := np_scale (Q2Qc 1e-9) np_random_normal in
  n ← lift (operator_index qM);
  let st := compare_sweep G h_quantizer n_quantizer d n in
  report st;;
  if with_plot then plot_with_voronoi (lattice_points st) q r_q M else mret tt.

End Run.

(** ** generate_codebook and plot_lattice_points (lines 11-39) *)

Section Codebook.
Context `{Collaborators}.

(** Lines 30-39.  Of the drawing only the scatter call is an event; it
    slices [points[:, 0]], which needs a 2-d array. *)
Definition plot_lattice_points (points : list point) (q : Z) : py unit :=
  lift (match points with [] => Raise IndexError | _ => Ok tt end);;
  emit (Scatter points).

(** The body of the inner loop, lines 17-20. *)
Definition codebook_body (G : matrix) (quantizer : Quantizer) (i j : Z)
    (points : list point) : list point :=
  let l_p := np_dot G i j in
  let dec := roundtrip quantizer l_p in
  points ++ [dec].

Definition generate_codebook (G : matrix) (closest_point : point → point)
    (q : Z) (with_plot : bool) : py (list point) :=
  quantizer ← new_NQuantizer G closest_point (Qc_of_Z q) 1%Qc 1%Qc;
  let points :=
    for_each (range q) (λ i,
      for_each (range q) (λ j,
        codebook_body G quantizer i j)) [] in
  (if with_plot then plot_lattice_points points q else mret tt);;
  mret points.

End Codebook.

(** ** A laboratory instance of the collaborators

    The integer lattice with a quantizer that keeps coordinates modulo [m]
    and reconstructs them with a fixed offset.  It is used to run the
    definitions on concrete inputs. *)

Definition offset_quantizer (m : Z) (off : Qc) : Quantizer :=
  {| Repr := Z * Z;
     _encode := λ p,
       let a := rint p.1 in
       let b := rint p.2 in
       ((a mod m, b mod m), negb (bool_decide (a mod m = a ∧ b mod m = b)));
     _decode := λ b, ((Qc_of_Z b.1 + off)%Qc, (Qc_of_Z b.2 + off)%Qc) |}.

(** A Voronoi stand-in: every point is given the same square cell. *)
Definition square_voronoi (points : list point) : voronoi :=
  {| point_region := (λ _, 0) <$> points;
     vertices := [(Q2Qc 0.5, Q2Qc 0.5); (Q2Qc (-0.5), Q2Qc 0.5);
                  (Q2Qc (-0.5), Q2Qc (-0.5)); (Q2Qc 0.5, Q2Qc (-0.5))];
     regions := [[0; 1; 2; 3]] |}.

Definition lab (h_off n_off : Qc) : Collaborators :=
  {| HQuantizer := λ _ _ q _ _ M, Ok (offset_quantizer (q ^ M) h_off);
     NQuantizer := λ _ _ q _ _, Ok (offset_quantizer (Qfloor q) n_off);
     Voronoi := λ points, Ok (square_voronoi points);
     np_random_normal := (Q2Qc 0.5, Q2Qc (-0.25)) |}.

Definition Z2 : matrix := Matrix 1%Qc 0%Qc 0%Qc 1%Qc.
Definition nearest_Z2 (p : point) : point := (Qc_of_Z (rint p.1), Qc_of_Z (rint p.2)).

(** The offset [1e-9 * np.random.normal(...)] of the laboratory runs. *)
Definition lab_d : point := np_scale (Q2Qc 1e-9) (Q2Qc 0.5, Q2Qc (-0.25)).

(** Quantizers on coordinates modulo 2: an exact one, one that
    reconstructs 5 units away, and one that reconstructs [1e-6] away. *)
Definition mod2_quantizer : Quantizer := offset_quantizer 2 0%Qc.
Definition shifted_quantizer : Quantizer := offset_quantizer 2 (Qc_of_Z 5).
Definition loose_quantizer : Quantizer := offset_quantizer 2 (Q2Qc 1e-6).

(** ** Vocabulary of the statements *)

(** The index pairs of an [n] by [n] sweep in row-major order. *)
Definition grid (n : Z) : list (Z * Z) :=
  i ← range n; (λ j, (i, j)) <$> range n.

Definition in_grid (n : Z) (p : Z * Z) : Prop :=
  (0 ≤ p.1 < n) ∧ (0 ≤ p.2 < n).

(** [p] is swept before [p'] by the row-major loops. *)
Definition before (p p' : Z * Z) : Prop :=
  p.1 < p'.1 ∨ (p.1 = p'.1 ∧ p.2 < p'.2).

(** The values the loop body computes at an index pair. *)
Definition perturbed (G : matrix) (d : point) (ij : Z * Z) : point :=
  np_add (np_dot G ij.1 ij.2) d.

Definition h_decode (G : matrix) (h_quantizer : Quantizer) (d : point)
    (ij : Z * Z) : point :=
  roundtrip h_quantizer (perturbed G d ij).

Definition n_decode (G : matrix) (n_quantizer : Quantizer) (d : point)
    (ij : Z * Z) : point :=
  roundtrip n_quantizer (perturbed G d ij).

Definition dec_tuple (G : matrix) (h_quantizer : Quantizer) (d : point)
    (ij : Z * Z) : point :=
  np_round 9 (h_decode G h_quantizer d ij).

(** The two tests of lines 65-66, on the unrounded decodes. *)
Definition flat_roundtrips (G : matrix) (n_quantizer : Quantizer) (d : point)
    (ij : Z * Z) : bool :=
  np_allclose (Q2Qc 1e-7) (n_decode G n_quantizer d ij) (perturbed G d ij).

Definition decodes_agree (G : matrix) (h_quantizer n_quantizer : Quantizer)
    (d : point) (ij : Z * Z) : bool :=
  np_allclose (Q2Qc 1e-7) (h_decode G h_quantizer d ij) (n_decode G n_quantizer d ij).

Definition mismatch_at (G : matrix) (h_quantizer n_quantizer : Quantizer)
    (d : point) (ij : Z * Z) : option (point * point * point) :=
  if flat_roundtrips G n_quantizer d ij
     && negb (decodes_agree G h_quantizer n_quantizer d ij)
  then Some (perturbed G d ij, h_decode G h_quantizer d ij, n_decode G n_quantizer d ij)
  else None.

Definition match_at (G : matrix) (h_quantizer n_quantizer : Quantizer)
    (d : point) (ij : Z * Z) : option (point * point) :=
  if flat_roundtrips G n_quantizer d ij
     && decodes_agree G h_quantizer n_quantizer d ij
  then Some (perturbed G d ij, h_decode G h_quantizer d ij)
  else None.

(** The loop body as a step on index pairs, and the sweep of a list of
    index pairs in the order given. *)
Definition sweep_step (G : matrix) (h_quantizer n_quantizer : Quantizer)
    (d : point) (st : sweep_state) (ij : Z * Z) : sweep_state :=
  sweep_body G h_quantizer n_quantizer d ij.1 ij.2 st.

Definition sweep_list (G : matrix) (h_quantizer n_quantizer : Quantizer)
    (d : point) (ps : list (Z * Z)) : sweep_state :=
  foldl (sweep_step G h_quantizer n_quantizer d) sweep_init ps.

(** The sweep with the two loops exchanged: outer over [j], inner over [i]. *)
Definition compare_sweep_column_major (G : matrix)
    (h_quantizer n_quantizer : Quantizer) (d : point) (n : Z) : sweep_state :=
  for_each (range n) (λ j,
    for_each (range n) (λ i,
      sweep_body G h_quantizer n_quantizer d i j)) sweep_init.

Definition grid_column_major (n : Z) : list (Z * Z) :=
  j ← range n; (λ i, (i, j)) <$> range n.

(** A generator matrix that sends [(i, j)] to [(i + j, 0)]. *)
Definition G_sum : matrix := Matrix 1%Qc 1%Qc 0%Qc 0%Qc.

(** [x] lies between [a] and [b], in either order. *)
Definition between (a x b : Qc) : Prop :=
  ((a ≤ x)%Qc ∧ (x ≤ b)%Qc) ∨ ((b ≤ x)%Qc ∧ (x ≤ a)%Qc).

Definition strictly_between (a x b : Qc) : Prop :=
  ((a < x)%Qc ∧ (x < b)%Qc) ∨ ((b < x)%Qc ∧ (x < a)%Qc).

(** The point [generate_codebook] stores for an index pair. *)
Definition codebook_point (G : matrix) (quantizer : Quantizer) (ij : Z * Z) : point :=
  roundtrip quantizer (np_dot G ij.1 ij.2).

(** [q^M - (q + q^2 + ... + q^(M-1))], written with one integer division. *)
Definition alphabet_int (q M : Z) : Z := q ^ M - (q ^ M - q) / (q - 1).

(** Closeness within an absolute tolerance alone, componentwise. *)
Definition within_abs (tol : Qc) (a b : point) : Prop :=
  (np_absolute (a.1 - b.1) ≤ tol)%Qc ∧ (np_absolute (a.2 - b.2) ≤ tol)%Qc.

(** The lines of the report, lines 80-98, as a function of the sweep. *)
Definition duplicate_lines (rec : point * (Z * Z) * (Z * Z)) : list line :=
  [DupPoint rec.1.1; DupOriginal rec.1.2; DupDuplicate rec.2].

Definition mismatch_lines (rec : point * point * point) : list line :=
  [MisOriginal rec.1.1; MisNested rec.1.2; MisRegular rec.2].

Definition report_lines (st : sweep_state) : list line :=
  [UniquePoints (length (np_unique (lattice_points st)))]
  ++ match duplicates st with
     | [] => [AllUnique]
     | _ => DuplicatesFound :: (duplicates st ≫= duplicate_lines)
     end
  ++ match mismatches st with
     | [] => [AllMatched]
     | _ => MismatchesFound :: (mismatches st ≫= mismatch_lines)
     end.

(** Constructor calls and drawing calls among the events of a run. *)
Definition is_construction (ev : event) : bool :=
  match ev with
  | Construct_H _ _ _ _ | Construct_N _ _ _ => true
  | _ => false
  end.

Definition is_drawing (ev : event) : bool :=
  match ev with
  | Scatter _ | Plot _ _ | Savefig _ => true
  | _ => false
  end.

Definition constructions (evs : list event) : list event :=
  filter (λ ev, is_construction ev = true) evs.

(** The overlap fraction and the flat alphabet size in the words of the
    specification: [r = (1 - q^(1-M)) / (q - 1)] and [q^M (1 - r)]. *)
Definition overlap_r (q M : Z) : Qc :=
  ((1 - Q2Qc (inject_Z q ^ (1 - M))) / (Qc_of_Z q - 1))%Qc.

Definition flat_alphabet (q M : Z) : Qc :=
  (Q2Qc (inject_Z q ^ M) * (1 - overlap_r q M))%Qc.

(** Move a goal on canonical rationals to [Q]. *)
Ltac Qc_to_Q :=
  try apply Qc_is_canon;
  unfold np_absolute, Qcabs.Qcabs, Qcle, Qclt, Qcdiv, Qcinv, Qcminus, Qcopp, Qcplus, Qcmult,
    Qc_of_Z, Q2Qc in *;
  cbn [this] in *;
  rewrite ?Qred_correct in *.

(** ** The sweep over a list of index pairs *)

Section Sweep.
Variables (G : matrix) (h_quantizer n_quantizer : Quantizer) (d : point).

#[local] Abbreviation step := (sweep_step G h_quantizer n_quantizer d).
#[local] Abbreviation sweep := (sweep_list G h_quantizer n_quantizer d).
#[local] Abbreviation key := (dec_tuple G h_quantizer d).

Lemma sweep_snoc ps ij : sweep (ps ++ [ij]) = step (sweep ps) ij.
Proof. unfold sweep_list. by rewrite foldl_snoc. Qed.

Lemma step_lattice_points st ij :
  lattice_points (step st ij) = lattice_points st ++ [h_decode G h_quantizer d ij].
Proof.
  unfold sweep_step, sweep_body.
  destruct (np_allclose _ (roundtrip n_quantizer _) _);
    try destruct (np_allclose _ _ _); by destruct (point_map st !! _).
Qed.

Lemma step_mismatches st ij :
  mismatches (step st ij)
  = mismatches st ++ option_list (mismatch_at G h_quantizer n_quantizer d ij).
Proof.
  unfold sweep_step, sweep_body, mismatch_at, flat_roundtrips, decodes_agree,
    n_decode, h_decode, perturbed.
  destruct (np_allclose _ (roundtrip n_quantizer _) _);
    try destruct (np_allclose _ _ _); destruct (point_map st !! _);
    cbn [andb negb option_list mismatches]; by rewrite ?app_nil_r.
Qed.

Lemma step_matches st ij :
  matches (step st ij)
  = matches st ++ option_list (match_at G h_quantizer n_quantizer d ij).
Proof.
  unfold sweep_step, sweep_body, match_at, flat_roundtrips, decodes_agree,
    n_decode, h_decode, perturbed.
  destruct (np_allclose _ (roundtrip n_quantizer _) _);
    try destruct (np_allclose _ _ _); destruct (point_map st !! _);
    cbn [andb negb option_list matches]; by rewrite ?app_nil_r.
Qed.

Lemma step_point_map st ij :
  point_map (step st ij)
  = match point_map st !! key ij with
    | Some _ => point_map st
    | None => <[key ij := ij]> (point_map st)
    end.
Proof.
  unfold sweep_step, sweep_body, dec_tuple, h_decode, perturbed.
  destruct ij as [i j]; cbn [fst snd].
  destruct (np_allclose _ (roundtrip n_quantizer _) _);
    try destruct (np_allclose _ _ _); by destruct (point_map st !! _).
Qed.

Lemma step_duplicates st ij :
  duplicates (step st ij)
  = duplicates st ++
    match point_map st !! key ij with
    | Some first => [(key ij, first, ij)]
    | None => []
    end.
Proof.
  unfold sweep_step, sweep_body, dec_tuple, h_decode, perturbed.
  destruct ij as [i j]; cbn [fst snd].
  destruct (np_allclose _ (roundtrip n_quantizer _) _);
    try destruct (np_allclose _ _ _); destruct (point_map st !! _);
    cbn [duplicates]; by rewrite ?app_nil_r.
Qed.

Lemma sweep_lattice_points ps :
  lattice_points (sweep ps) = h_decode G h_quantizer d <$> ps.
Proof.
  induction ps as [|ij ps IH] using rev_ind; [done|].
  by rewrite sweep_snoc, step_lattice_points, IH, fmap_app.
Qed.

Lemma sweep_mismatches ps :
  mismatches (sweep ps) = omap (mismatch_at G h_quantizer n_quantizer d) ps.
Proof.
  induction ps as [|ij ps IH] using rev_ind; [done|].
  rewrite sweep_snoc, step_mismatches, IH, omap_app. cbn [omap list_omap].
  by destruct (mismatch_at _ _ _ _ _).
Qed.

Lemma sweep_matches ps :
  matches (sweep ps) = omap (match_at G h_quantizer n_quantizer d) ps.
Proof.
  induction ps as [|ij ps IH] using rev_ind; [done|].
  rewrite sweep_snoc, step_matches, IH, omap_app. cbn [omap list_omap].
  by destruct (match_at _ _ _ _ _).
Qed.

(** The map sends each rounded point to the first pair that produced it. *)
Lemma sweep_point_map ps k :
  point_map (sweep ps) !! k = snd <$> list_find (λ ij, key ij = k) ps.
Proof.
  induction ps as [|ij ps IH] using rev_ind; [done|].
  rewrite sweep_snoc, step_point_map.
  destruct (list_find (λ ij, key ij = k) ps) as [[t f]|] eqn:Hfind.
  - rewrite (list_find_app_l _ _ _ _ _ Hfind).
    destruct (point_map (sweep ps) !! key ij) eqn:Hk; [done|].
    rewrite lookup_insert_ne; [done|]. intros <-. by rewrite IH in Hk.
  - rewrite list_find_app_r by done. cbn [list_find].
    destruct (decide (key ij = k)) as [<-|Hne]; cbn [fmap option_fmap option_map fst snd prod_map].
    + rewrite IH. cbn [fmap option_fmap option_map]. by rewrite lookup_insert_eq.
    + destruct (point_map (sweep ps) !! key ij); [done|].
      by rewrite lookup_insert_ne.
Qed.

Lemma sweep_duplicates_snoc ps ij :
  duplicates (sweep (ps ++ [ij]))
  = duplicates (sweep ps) ++
    match list_find (λ x, key x = key ij) ps with
    | Some (_, first) => [(key ij, first, ij)]
    | None => []
    end.
Proof.
  rewrite sweep_snoc, step_duplicates, sweep_point_map.
  by destruct (list_find _ ps) as [[??]|].
Qed.

(** Each pair adds one entry to the map or one record to the duplicates. *)
Lemma sweep_count ps :
  (size (point_map (sweep ps)) + length (duplicates (sweep ps)) = length ps)%nat.
Proof.
  induction ps as [|ij ps IH] using rev_ind; [done|].
  rewrite sweep_snoc, step_point_map, step_duplicates, !length_app.
  destruct (point_map (sweep ps) !! key ij) eqn:Hk; cbn [length].
  - lia.
  - rewrite map_size_insert_None by done. lia.
Qed.

Lemma sweep_dom ps :
  dom (point_map (sweep ps)) = list_to_set (key <$> ps).
Proof.
  induction ps as [|ij ps IH] using rev_ind; [apply dom_empty_L|].
  rewrite sweep_snoc, step_point_map, fmap_app, list_to_set_app_L.
  cbn [fmap list_fmap list_to_set].
  destruct (point_map (sweep ps) !! key ij) eqn:Hk.
  - apply (elem_of_dom_2 (D := gset point)) in Hk.
    rewrite IH in *. generalize dependent (key ij).
    generalize (list_to_set (key <$> ps) : gset point).
    clear. intros X k Hk. set_solver.
  - rewrite dom_insert_L, IH. generalize (key ij).
    generalize (list_to_set (key <$> ps) : gset point).
    clear. intros X k. set_solver.
Qed.

End Sweep.

(** ** The grid of index pairs *)

Lemma foldl_bind {A B C} (f : A → C → A) (g : B → list C) (a : A) (l : list B) :
  foldl f a (l ≫= g) = foldl (λ s x, foldl f s (g x)) a l.
Proof.
  revert a. induction l as [|x l IH]; intros a; [done|].
  cbn [mbind list_bind foldl]. by rewrite foldl_app, <- IH.
Qed.

Lemma foldl_ext_fun {A B} (f g : A → B → A) (a : A) (l : list B) :
  (∀ s x, f s x = g s x) → foldl f a l = foldl g a l.
Proof. intros Hfg. revert a. induction l as [|x l IH]; intros a; cbn; [done|]. by rewrite Hfg, IH. Qed.

Lemma compare_sweep_grid G h_quantizer n_quantizer d n :
  compare_sweep G h_quantizer n_quantizer d n
  = sweep_list G h_quantizer n_quantizer d (grid n).
Proof.
  unfold compare_sweep, sweep_list, grid, for_each.
  rewrite foldl_bind. apply foldl_ext_fun. intros s i.
  by rewrite foldl_fmap.
Qed.

Lemma lookup_product {A B} (xs : list A) (ys : list B) (t : nat) (x : A) (y : B) :
  (xs ≫= λ a, (λ b, (a, b)) <$> ys) !! t = Some (x, y)
  ↔ ∃ a b, xs !! a = Some x ∧ ys !! b = Some y ∧ t = (a * length ys + b)%nat.
Proof.
  revert t. induction xs as [|x0 xs IH]; intros t.
  - cbn. split; [done|]. by intros (a & b & ? & _).
  - cbn [mbind list_bind]. fold (xs ≫= λ a, (λ b, (a, b)) <$> ys).
    destruct (decide (t < length ys)%nat) as [Hlt|Hge].
    + rewrite lookup_app_l by by rewrite length_fmap.
      rewrite list_lookup_fmap. split.
      * destruct (ys !! t) eqn:Hy; [|done]. cbn. intros [= -> ->].
        exists 0%nat, t. auto.
      * intros (a & b & Ha & Hb & ->).
        destruct a as [|a].
        -- cbn in Ha. injection Ha as ->. cbn. by rewrite Hb.
        -- apply lookup_lt_Some in Hb. cbn in Hlt. lia.
    + rewrite lookup_app_r by (rewrite length_fmap; lia).
      rewrite length_fmap, IH. split.
      * intros (a & b & Ha & Hb & Ht). exists (S a), b. split_and!; [done..|]. lia.
      * intros (a & b & Ha & Hb & ->). destruct a as [|a].
        -- apply lookup_lt_Some in Hb. cbn in Hge. lia.
        -- exists a, b. split_and!; [done..|]. lia.
Qed.

Lemma length_product {A B} (xs : list A) (ys : list B) :
  length (xs ≫= λ a, (λ b, (a, b)) <$> ys) = (length xs * length ys)%nat.
Proof.
  induction xs as [|x0 xs IH]; [done|].
  cbn [mbind list_bind]. rewrite length_app, length_fmap. cbn. f_equal. apply IH.
Qed.

Lemma lookup_range n a i : range n !! a = Some i ↔ i = Z.of_nat a ∧ 0 ≤ i < n.
Proof.
  unfold range. rewrite list_lookup_fmap. split.
  - destruct (seq 0 (Z.to_nat n) !! a) eqn:Hs; [|done].
    apply lookup_seq in Hs as [-> ?]. cbn. intros [= <-]. lia.
  - intros [-> ?]. rewrite lookup_seq_lt by lia. done.
Qed.

Lemma length_range n : length (range n) = Z.to_nat n.
Proof. unfold range. by rewrite length_fmap, length_seq. Qed.

Lemma lookup_grid n t i j :
  grid n !! t = Some (i, j) ↔ in_grid n (i, j) ∧ t = Z.to_nat (i * n + j).
Proof.
  unfold grid, in_grid. rewrite lookup_product. cbn [fst snd]. split.
  - intros (a & b & [-> ?]%lookup_range & [-> ?]%lookup_range & ->).
    rewrite length_range. split; [lia|]. nia.
  - intros ([? ?] & ->). exists (Z.to_nat i), (Z.to_nat j).
    rewrite !lookup_range, length_range. split_and!; first [lia|nia].
Qed.

Lemma length_grid n : length (grid n) = (Z.to_nat n * Z.to_nat n)%nat.
Proof. unfold grid. by rewrite length_product, length_range. Qed.

Lemma elem_of_grid n p : p ∈ grid n ↔ in_grid n p.
Proof.
  destruct p as [i j]. rewrite list_elem_of_lookup. split.
  - by intros [t [? _]%lookup_grid].
  - intros ?. exists (Z.to_nat (i * n + j)). by apply lookup_grid.
Qed.

Lemma grid_index_before n p p' :
  in_grid n p → in_grid n p' →
  (Z.to_nat (p.1 * n + p.2) < Z.to_nat (p'.1 * n + p'.2))%nat ↔ before p p'.
Proof.
  unfold in_grid, before. destruct p as [i j], p' as [i' j']. cbn [fst snd].
  intros [? ?] [? ?]. split.
  - intros Hlt. destruct (decide (i < i')); [by left|]. right.
    assert (i = i') as <- by nia. split; [done|]. nia.
  - intros [?|[-> ?]]; nia.
Qed.

(** ** Python arithmetic of line 46 *)

Lemma Qc_of_Z_pow (q e : Z) : 0 ≤ e → Qc_of_Z (q ^ e) = Q2Qc (inject_Z q ^ e).
Proof. intros. Qc_to_Q. by apply Zpower_Qpower. Qed.

Lemma Qc_pow_neg (q e : Z) : e < 0 → (/ Qc_of_Z (q ^ (- e)))%Qc = Q2Qc (inject_Z q ^ e).
Proof.
  intros. Qc_to_Q. rewrite Zpower_Qpower by lia.
  rewrite Qpower_opp. by rewrite Qinv_involutive.
Qed.

Lemma overlap_fraction_spec (q M : Z) :
  q ≠ 1 → (q ≠ 0 ∨ M ≤ 1) → overlap_fraction q M = Ok (overlap_r q M).
Proof.
  intros Hq1 Hq0. unfold overlap_fraction, overlap_r, py_pow.
  assert (Qc_of_Z (q - 1) ≠ 0%Qc) as Hden.
  { rewrite <- Z2Qc_inj_0. intros ?%Z2Qc_inj. lia. }
  destruct (decide (0 ≤ 1 - M)) as [Hpos|Hneg].
  - unfold py_sub, py_truediv. cbn [to_float].
    rewrite decide_False by done. f_equal.
    by rewrite !Z2Qc_inj_sub, Z2Qc_inj_1, Qc_of_Z_pow.
  - rewrite decide_False by lia.
    unfold py_sub, py_truediv. cbn [to_float].
    rewrite decide_False by done. f_equal.
    rewrite Z2Qc_inj_sub, !Z2Qc_inj_1. by rewrite Qc_pow_neg by lia.
Qed.

(** ** The run monad *)

Lemma bind_Ok {A B} (evs : list event) (a : A) (k : A → py B) :
  ((evs, Ok a) ≫= k) = (evs ++ (k a).1, (k a).2).
Proof. done. Qed.

Lemma bind_Raise {A B} (evs : list event) (e : exn) (k : A → py B) :
  ((evs, Raise e) ≫= k) = (evs, Raise e).
Proof. done. Qed.

Lemma bind_lift_Ok {A B} (a : A) (k : A → py B) : (lift (Ok a) ≫= k) = k a.
Proof. unfold lift. rewrite bind_Ok. by destruct (k a). Qed.

Lemma bind_lift_Raise {A B} (e : exn) (k : A → py B) :
  (lift (Raise e) ≫= k) = ([], Raise e).
Proof. done. Qed.

Lemma bind_emit {B} (ev : event) (k : unit → py B) :
  (emit ev ≫= k) = (ev :: (k tt).1, (k tt).2).
Proof. done. Qed.

Lemma py_for_lines {A} (xs : list A) (f : A → list line) (body : A → py unit) :
  (∀ x, body x = (Stdout <$> f x, Ok tt)) →
  py_for xs body = (Stdout <$> (xs ≫= f), Ok tt).
Proof.
  intros Hbody. induction xs as [|x xs IH]; [done|].
  cbn [py_for mbind list_bind]. rewrite Hbody, bind_Ok, IH.
  cbn [fst snd]. by rewrite fmap_app.
Qed.

(** ** The report *)

Lemma report_spec st : report st = (Stdout <$> report_lines st, Ok tt).
Proof.
  unfold report, report_lines, py_print.
  destruct (duplicates st) as [|dr drs]; destruct (mismatches st) as [|mr mrs];
    rewrite ?bind_emit;
    rewrite ?(py_for_lines _ duplicate_lines) by (by intros [[??]?]);
    rewrite ?(py_for_lines _ mismatch_lines) by (by intros [[??]?]);
    rewrite ?bind_Ok, ?bind_emit; cbn [fst snd];
    rewrite ?bind_Ok, ?bind_emit; cbn [fst snd];
    rewrite ?fmap_app, ?fmap_cons; cbn [app]; rewrite <- ?app_assoc; try done.
Qed.

(** ** Rendering *)

Section RunFacts.
Context `{Collaborators}.

Lemma origin_index_Raise points :
  origin_index points = Raise IndexError
  ↔ ∀ p, p ∈ points → np_allclose (Q2Qc 1e-2) p (0%Qc, 0%Qc) = false.
Proof.
  unfold origin_index.
  destruct (list_find _ points) as [[k p]|] eqn:Hfind.
  - apply list_find_Some in Hfind as (Hk & Hp & _). split; [done|].
    intros Hall. apply list_elem_of_lookup_2 in Hk. rewrite (Hall _ Hk) in Hp. done.
  - apply list_find_None in Hfind. split; [|done]. intros _ p Hp.
    rewrite Forall_forall in Hfind. apply Hfind in Hp.
    by destruct (np_allclose _ p _).
Qed.

(** Every event of [plot_with_voronoi] is a drawing call. *)
Lemma plot_with_voronoi_drawing points q r_qM M :
  Forall (λ ev, is_drawing ev = true) (plot_with_voronoi points q r_qM M).1.
Proof.
  unfold plot_with_voronoi.
  destruct points as [|p points']; [by rewrite bind_lift_Raise|].
  rewrite bind_lift_Ok, bind_emit. cbn [fst]. constructor; [done|].
  repeat match goal with
  | |- context [lift ?r ≫= _] =>
    destruct r; [rewrite bind_lift_Ok|rewrite bind_lift_Raise; by constructor]
  end.
  rewrite !bind_emit. cbn [fst]. by repeat constructor.
Qed.

(** Without a point near the origin the rendering raises, after at most
    the scatter call. *)
Lemma plot_with_voronoi_no_origin points q r_qM M :
  (∀ p, p ∈ points → np_allclose (Q2Qc 1e-2) p (0%Qc, 0%Qc) = false) →
  ∃ e, (plot_with_voronoi points q r_qM M).2 = Raise e
       ∧ ((plot_with_voronoi points q r_qM M).1 = []
          ∨ (plot_with_voronoi points q r_qM M).1 = [Scatter points])
       ∧ (points ≠ [] → is_Some (match Voronoi points with Ok v => Some v | Raise _ => None end) →
          e = IndexError).
Proof.
  intros Hfar%origin_index_Raise. unfold plot_with_voronoi.
  destruct points as [|p points'].
  { exists IndexError. rewrite bind_lift_Raise. auto. }
  rewrite bind_lift_Ok, bind_emit. cbn [fst snd].
  destruct (Voronoi (p :: points')) as [vor|e].
  - rewrite bind_lift_Ok, Hfar, bind_lift_Raise. exists IndexError. auto.
  - rewrite bind_lift_Raise. exists e. split_and!; [done|by right|].
    by intros _ [? ?].
Qed.

(** ** A run whose set-up succeeds *)

Lemma new_HQuantizer_spec G closest_point q beta alpha M :
  new_HQuantizer G closest_point q beta alpha M
  = ([Construct_H q beta alpha M], HQuantizer G closest_point q beta alpha M).
Proof. done. Qed.

Lemma new_NQuantizer_spec G closest_point q beta alpha :
  new_NQuantizer G closest_point q beta alpha
  = ([Construct_N q beta alpha], NQuantizer G closest_point q beta alpha).
Proof. done. Qed.

Lemma compare_codebooks_run G closest_point q M (with_plot : bool) r h_quantizer n_quantizer :
  overlap_fraction q M = Ok r →
  0 ≤ M →
  HQuantizer G closest_point q 1%Qc 1%Qc M = Ok h_quantizer →
  NQuantizer G closest_point (Qc_of_Z (q ^ M) * (1 - r))%Qc 1%Qc 1%Qc = Ok n_quantizer →
  let st := compare_sweep G h_quantizer n_quantizer
              (np_scale (Q2Qc 1e-9) np_random_normal) (q ^ M) in
  let plot : py unit := if with_plot then plot_with_voronoi (lattice_points st) q r M else mret tt in
  compare_codebooks G closest_point q M with_plot
  = ([Construct_H q 1%Qc 1%Qc M; Construct_N (Qc_of_Z (q ^ M) * (1 - r))%Qc 1%Qc 1%Qc]
       ++ (Stdout <$> report_lines st) ++ plot.1,
     plot.2).
Proof.
  intros Hr HM Hh Hn st plot. unfold compare_codebooks.
  rewrite Hr, bind_lift_Ok, new_HQuantizer_spec, Hh, bind_Ok.
  unfold py_pow. rewrite decide_True by done.
  rewrite bind_lift_Ok, new_NQuantizer_spec. cbn [to_float].
  rewrite Hn, bind_Ok. cbn [operator_index].
  rewrite bind_lift_Ok, report_spec, bind_Ok. done.
Qed.

End RunFacts.

(** ** Duplicate bookkeeping *)

Section Duplicates.
Variables (G : matrix) (h_quantizer n_quantizer : Quantizer) (d : point).

#[local] Abbreviation sweep := (sweep_list G h_quantizer n_quantizer d).
#[local] Abbreviation key := (dec_tuple G h_quantizer d).

(** A record is emitted at a position exactly when an earlier position
    holds a pair with the same rounded decode; it names the first one. *)
Lemma elem_of_sweep_duplicates ps rec :
  rec ∈ duplicates (sweep ps) ↔
  ∃ t t' p f, rec = (key p, f, p) ∧ ps !! t = Some p ∧ (t' < t)%nat
    ∧ list_find (λ x, key x = key p) ps = Some (t', f).
Proof.
  induction ps as [|ij ps IH] using rev_ind.
  - split; [by intros ?%elem_of_nil|]. by intros (t & t' & p & f & _ & ? & _).
  - rewrite sweep_duplicates_snoc, elem_of_app, IH. split.
    + intros [(t & t' & p & f & -> & Ht & Hlt & Hfind)|Hnew].
      * exists t, t', p, f. split_and!; [done| |done|].
        -- by apply lookup_app_l_Some.
        -- by apply list_find_app_l.
      * destruct (list_find (λ x, key x = key ij) ps) as [[t' f]|] eqn:Hfind;
          [|by apply elem_of_nil in Hnew].
        apply list_elem_of_singleton in Hnew as ->.
        exists (length ps), t', ij, f. split_and!; [done| | |].
        -- by apply list_lookup_middle.
        -- apply list_find_Some in Hfind as [?%lookup_lt_Some _]. done.
        -- by apply list_find_app_l.
    + intros (t & t' & p & f & -> & Ht & Hlt & Hfind).
      pose proof (lookup_lt_Some _ _ _ Ht) as Hbound. rewrite length_app in Hbound.
      cbn [length] in Hbound.
      apply list_find_app_Some in Hfind as [Hfind|(Hge & _ & _)]; [|lia].
      destruct (decide (t < length ps)%nat) as [Hin|Hlast].
      * left. exists t, t', p, f. split_and!; [done| |done|done].
        by rewrite lookup_app_l in Ht.
      * right. assert (t = length ps) as -> by lia.
        rewrite list_lookup_middle in Ht by done. injection Ht as <-.
        rewrite Hfind. by apply list_elem_of_singleton.
Qed.

Lemma sweep_duplicates_length ps :
  length (duplicates (sweep ps))
  = (length ps - size (list_to_set (key <$> ps) : gset point))%nat.
Proof.
  pose proof (sweep_count G h_quantizer n_quantizer d ps) as Hcount.
  rewrite <- (sweep_dom G h_quantizer n_quantizer d), size_dom. lia.
Qed.

Lemma sweep_duplicates_length_perm ps ps' :
  ps ≡ₚ ps' → length (duplicates (sweep ps)) = length (duplicates (sweep ps')).
Proof.
  intros Hperm. rewrite !sweep_duplicates_length.
  rewrite (Permutation_length Hperm). do 2 f_equal.
  apply set_eq. intros k. rewrite !elem_of_list_to_set. by rewrite Hperm.
Qed.

End Duplicates.

Lemma product_swap {A B} (xs : list A) (ys : list B) :
  (xs ≫= λ a, (λ b, (b, a)) <$> ys) = prod_swap <$> (xs ≫= λ a, (λ b, (a, b)) <$> ys).
Proof.
  induction xs as [|x xs IH]; [done|].
  cbn [mbind list_bind]. rewrite fmap_app, <- IH. f_equal.
  by rewrite <- list_fmap_compose.
Qed.

Lemma grid_column_major_swap n : grid_column_major n = prod_swap <$> grid n.
Proof. apply product_swap. Qed.

Lemma in_grid_swap n p : in_grid n (prod_swap p) ↔ in_grid n p.
Proof. destruct p. unfold in_grid. cbn. tauto. Qed.

Lemma NoDup_grid n : NoDup (grid n).
Proof.
  apply NoDup_alt. intros t t' [i j] [_ ->]%lookup_grid [_ ->]%lookup_grid. done.
Qed.

Lemma grid_column_major_perm n : grid n ≡ₚ grid_column_major n.
Proof.
  rewrite grid_column_major_swap. apply NoDup_Permutation.
  - apply NoDup_grid.
  - apply NoDup_fmap_2; [|apply NoDup_grid]. by intros [??] [??] [= -> ->].
  - intros p. rewrite list_elem_of_fmap, elem_of_grid. split.
    + intros Hp. exists (prod_swap p). destruct p. split; [done|].
      by apply elem_of_grid, in_grid_swap.
    + intros (p' & -> & Hp'%elem_of_grid). by apply in_grid_swap.
Qed.

Lemma compare_sweep_column_major_grid G h_quantizer n_quantizer d n :
  compare_sweep_column_major G h_quantizer n_quantizer d n
  = sweep_list G h_quantizer n_quantizer d (grid_column_major n).
Proof.
  unfold compare_sweep_column_major, sweep_list, grid_column_major, for_each.
  rewrite foldl_bind. apply foldl_ext_fun. intros s j.
  by rewrite foldl_fmap.
Qed.

Lemma pow_twice (q M : Z) : 0 ≤ M → q ^ (2 * M) = q ^ M * q ^ M.
Proof. intros. replace (2 * M) with (M + M) by lia. by rewrite Z.pow_add_r. Qed.

Section SweepProperties.
Variables (G : matrix) (h_quantizer n_quantizer : Quantizer) (d : point).

#[local] Abbreviation key := (dec_tuple G h_quantizer d).

(** C10.  After each index pair of the sweep, the number of entries of
    the rounded-point map plus the number of duplicate records equals the
    number of pairs processed; after the whole sweep the keys of the map
    are the distinct 9-decimal roundings of the decoded points, and their
    number plus the number of duplicate records is [q^(2M)]. *)
Theorem sweep_count_invariant (q M : Z) :
  2 ≤ q → 1 ≤ M →
  (∀ k, (k ≤ length (grid (q ^ M)))%nat →
     let st := sweep_list G h_quantizer n_quantizer d (take k (grid (q ^ M))) in
     (size (point_map st) + length (duplicates st))%nat = k)
  ∧ sweep_list G h_quantizer n_quantizer d (take (length (grid (q ^ M))) (grid (q ^ M)))
    = compare_sweep G h_quantizer n_quantizer d (q ^ M)
  ∧ let st := compare_sweep G h_quantizer n_quantizer d (q ^ M) in
    let rounded : gset point := list_to_set (np_round 9 <$> lattice_points st) in
    dom (point_map st) = rounded
    ∧ (size rounded + length (duplicates st))%nat = Z.to_nat (q ^ (2 * M)).
Proof.
  intros Hq HM. split_and!.
  - intros k Hk st. unfold st. rewrite sweep_count, length_take. lia.
  - by rewrite firstn_all, compare_sweep_grid.
  - intros st rounded.
    assert (dom (point_map st) = rounded) as Hdom.
    { unfold rounded, st. rewrite compare_sweep_grid, sweep_dom, sweep_lattice_points.
      by rewrite <- list_fmap_compose. }
    split; [done|]. rewrite <- Hdom, size_dom. unfold st.
    rewrite compare_sweep_grid, sweep_count, length_grid, pow_twice by lia.
    rewrite Z2Nat.inj_mul; lia.
Qed.

(** C9.  For [q >= 2], [M >= 1] and a fixed offset [d], sweeping the grid
    column-major instead of row-major emits the same number of duplicate
    records.  (That the first-seen pairs can differ is
    [first_seen_depends_on_order].) *)
Theorem duplicate_count_order_independent (q M : Z) :
  2 ≤ q → 1 ≤ M →
  length (duplicates (compare_sweep G h_quantizer n_quantizer d (q ^ M)))
  = length (duplicates (compare_sweep_column_major G h_quantizer n_quantizer d (q ^ M))).
Proof.
  intros _ _. rewrite compare_sweep_grid, compare_sweep_column_major_grid.
  apply sweep_duplicates_length_perm, grid_column_major_perm.
Qed.


End SweepProperties.

(** ** The run of [compare_codebooks] *)

Lemma length_remove_dups_le {A} `{EqDecision A} (l : list A) :
  (length (remove_dups l) ≤ length l)%nat.
Proof.
  induction l as [|x l IH]; [done|].
  cbn [remove_dups length]. destruct (decide_rel _ x l); cbn [length]; lia.
Qed.

Section RunOfSweep.
Context `{Collaborators}.
Variables (G : matrix) (closest_point : point → point).

#[local] Abbreviation d := (np_scale (Q2Qc 1e-9) np_random_normal).

Lemma flat_alphabet_eq q M :
  0 ≤ M → (Qc_of_Z (q ^ M) * (1 - overlap_r q M))%Qc = flat_alphabet q M.
Proof. intros. unfold flat_alphabet. by rewrite Qc_of_Z_pow. Qed.


End RunOfSweep.

Lemma constructions_app evs evs' :
  constructions (evs ++ evs') = constructions evs ++ constructions evs'.
Proof. apply filter_app. Qed.

Lemma constructions_Stdout lines : constructions (Stdout <$> lines) = [].
Proof. induction lines as [|l lines IH]; [done|]. apply IH. Qed.

Lemma constructions_drawing evs :
  Forall (λ ev, is_drawing ev = true) evs → constructions evs = [].
Proof.
  induction 1 as [|ev evs Hev _ IH]; [done|].
  unfold constructions. rewrite filter_cons_False; [done|].
  by destruct ev.
Qed.

Section RunProperties.
Context `{Collaborators}.
Variables (G : matrix) (closest_point : point → point).

#[local] Abbreviation d := (np_scale (Q2Qc 1e-9) np_random_normal).

(** The constructor calls of a run whose overlap fraction is defined. *)
Lemma compare_codebooks_constructions q M (with_plot : bool) r :
  overlap_fraction q M = Ok r → 0 ≤ M →
  constructions (compare_codebooks G closest_point q M with_plot).1
  = Construct_H q 1%Qc 1%Qc M ::
    match HQuantizer G closest_point q 1%Qc 1%Qc M with
    | Ok _ => [Construct_N (Qc_of_Z (q ^ M) * (1 - r))%Qc 1%Qc 1%Qc]
    | Raise _ => []
    end.
Proof.
  intros Hr HM.
  destruct (HQuantizer G closest_point q 1%Qc 1%Qc M) as [h|e] eqn:Hh.
  - destruct (NQuantizer G closest_point (Qc_of_Z (q ^ M) * (1 - r))%Qc 1%Qc 1%Qc)
      as [nq|e] eqn:Hn.
    + rewrite (compare_codebooks_run G closest_point q M with_plot r h nq) by done.
      cbn [fst]. rewrite !constructions_app, constructions_Stdout.
      rewrite (constructions_drawing (_.1)); [done|].
      destruct with_plot; [apply plot_with_voronoi_drawing|constructor].
    + unfold compare_codebooks.
      rewrite Hr, bind_lift_Ok, new_HQuantizer_spec, Hh, bind_Ok.
      unfold py_pow. rewrite decide_True by done.
      rewrite bind_lift_Ok, new_NQuantizer_spec. cbn [to_float].
      by rewrite Hn, bind_Raise.
  - unfold compare_codebooks.
    by rewrite Hr, bind_lift_Ok, new_HQuantizer_spec, Hh, bind_Raise.
Qed.



Lemma perturbed_origin d' : perturbed G d' (0, 0) = d'.
Proof.
  unfold perturbed, np_add, np_dot. destruct d' as [x y]. cbn [fst snd].
  rewrite Z2Qc_inj_0. f_equal; ring.
Qed.


Lemma overlap_fraction_one M : overlap_fraction 1 M = Raise ZeroDivisionError.
Proof.
  unfold overlap_fraction, py_pow.
  destruct (decide (0 ≤ 1 - M)); [done|].
  rewrite (decide_False (P := 1 = 0)) by lia. done.
Qed.

(** C6, as amended.  With [q = 1] the run raises [ZeroDivisionError] at
    line 46, before any quantizer is constructed.  With [M = 0] and
    [q <> 1] nothing is rejected by [compare_codebooks] itself: [r = -1],
    the flat alphabet size is 2, the run stops before the sweep only when
    a quantizer constructor raises, and otherwise the sweep visits the
    single index pair [(0, 0)] and the report is printed. *)
Theorem degenerate_parameters (q M : Z) (with_plot : bool) :
  (q = 1 →
     compare_codebooks G closest_point q M with_plot = ([], Raise ZeroDivisionError))
  ∧ (M = 0 → q ≠ 1 →
     overlap_fraction q M = Ok (- 1)%Qc
     ∧ match HQuantizer G closest_point q 1%Qc 1%Qc 0,
             NQuantizer G closest_point (Qc_of_Z 2) 1%Qc 1%Qc with
       | Raise e, _ =>
         compare_codebooks G closest_point q M with_plot
         = ([Construct_H q 1%Qc 1%Qc 0], Raise e)
       | Ok _, Raise e =>
         compare_codebooks G closest_point q M with_plot
         = ([Construct_H q 1%Qc 1%Qc 0; Construct_N (Qc_of_Z 2) 1%Qc 1%Qc], Raise e)
       | Ok h_quantizer, Ok n_quantizer =>
         let st := compare_sweep G h_quantizer n_quantizer d 1 in
         let plot : py unit :=
           if with_plot then plot_with_voronoi (lattice_points st) q (- 1)%Qc 0
           else mret tt in
         lattice_points st = [h_decode G h_quantizer d (0, 0)]
         ∧ compare_codebooks G closest_point q M with_plot
           = ([Construct_H q 1%Qc 1%Qc 0; Construct_N (Qc_of_Z 2) 1%Qc 1%Qc]
                ++ (Stdout <$> report_lines st) ++ plot.1, plot.2)
       end).
Proof.
  split.
  - intros ->. unfold compare_codebooks. by rewrite overlap_fraction_one.
  - intros -> Hq.
    assert (overlap_fraction q 0 = Ok (- 1)%Qc) as Hr.
    { unfold overlap_fraction, py_pow. rewrite decide_True by lia.
      unfold py_sub, py_truediv. cbn [to_float].
      rewrite decide_False; cycle 1.
      { rewrite <- Z2Qc_inj_0. intros ?%Z2Qc_inj. lia. }
      f_equal. rewrite Z.sub_0_r, Z.pow_1_r.
      replace (1 - q) with (- (q - 1)) by lia. rewrite Z2Qc_inj_opp.
      field. rewrite <- Z2Qc_inj_0. intros ?%Z2Qc_inj. lia. }
    split; [done|].
    assert (Qc_of_Z (q ^ 0) * (1 - - 1) = Qc_of_Z 2)%Qc as Ha.
    { rewrite Z.pow_0_r. apply Qc_is_canon. by vm_compute. }
    destruct (HQuantizer G closest_point q 1%Qc 1%Qc 0) as [h|e] eqn:Hh.
    + destruct (NQuantizer G closest_point (Qc_of_Z 2) 1%Qc 1%Qc) as [nq|e] eqn:Hn.
      * intros st plot. split.
        { unfold st. by rewrite compare_sweep_grid, sweep_lattice_points. }
        rewrite (compare_codebooks_run G closest_point q 0 with_plot (- 1)%Qc h nq);
          rewrite ?Ha, ?Z.pow_0_r; done.
      * unfold compare_codebooks.
        rewrite Hr, bind_lift_Ok, new_HQuantizer_spec, Hh, bind_Ok.
        unfold py_pow. rewrite decide_True by done.
        rewrite bind_lift_Ok, new_NQuantizer_spec. cbn [to_float].
        by rewrite Ha, Hn, bind_Raise.
    + unfold compare_codebooks.
      by rewrite Hr, bind_lift_Ok, new_HQuantizer_spec, Hh, bind_Raise.
Qed.

Lemma elem_of_report_duplicates st rec :
  rec ∈ duplicates st → duplicate_lines rec ⊆ report_lines st.
Proof.
  intros Hrec l Hl. unfold report_lines.
  destruct (duplicates st) as [|r0 rs] eqn:Hd; [by apply elem_of_nil in Hrec|].
  apply elem_of_app. right. apply elem_of_app. left. apply list_elem_of_further.
  apply list_elem_of_bind. eauto.
Qed.

Lemma elem_of_report_mismatches st rec :
  rec ∈ mismatches st → mismatch_lines rec ⊆ report_lines st.
Proof.
  intros Hrec l Hl. unfold report_lines.
  destruct (mismatches st) as [|r0 rs] eqn:Hd; [by apply elem_of_nil in Hrec|].
  apply elem_of_app. right. apply elem_of_app. right. apply list_elem_of_further.
  apply list_elem_of_bind. eauto.
Qed.

(** C7.  For [q >= 2], [M >= 1] and quantizers that are built, if no
    decoded point is within [1e-2] of the origin componentwise, the run
    with plotting ends with an exception ([IndexError] when the Voronoi
    diagram itself is built), after it has printed the same report as the
    run without plotting: the number of unique points, the lines of every
    duplicate record and the lines of every mismatch record.  The only
    drawing call made is the scatter. *)
Theorem rendering_failure_keeps_report (q M : Z) (h_quantizer n_quantizer : Quantizer) :
  2 ≤ q → 1 ≤ M →
  HQuantizer G closest_point q 1%Qc 1%Qc M = Ok h_quantizer →
  NQuantizer G closest_point (flat_alphabet q M) 1%Qc 1%Qc = Ok n_quantizer →
  let st := compare_sweep G h_quantizer n_quantizer d (q ^ M) in
  (∀ p, p ∈ lattice_points st → np_allclose (Q2Qc 1e-2) p (0%Qc, 0%Qc) = false) →
  ∃ e drawn,
    compare_codebooks G closest_point q M true
    = ([Construct_H q 1%Qc 1%Qc M; Construct_N (flat_alphabet q M) 1%Qc 1%Qc]
         ++ (Stdout <$> report_lines st) ++ drawn, Raise e)
    ∧ (drawn = [] ∨ drawn = [Scatter (lattice_points st)])
    ∧ (∀ vor, Voronoi (lattice_points st) = Ok vor → e = IndexError)
    ∧ compare_codebooks G closest_point q M false
      = ([Construct_H q 1%Qc 1%Qc M; Construct_N (flat_alphabet q M) 1%Qc 1%Qc]
           ++ (Stdout <$> report_lines st), Ok tt)
    ∧ UniquePoints (length (np_unique (lattice_points st))) ∈ report_lines st
    ∧ (∀ rec, rec ∈ duplicates st → duplicate_lines rec ⊆ report_lines st)
    ∧ (∀ rec, rec ∈ mismatches st → mismatch_lines rec ⊆ report_lines st).
Proof.
  intros Hq HM Hh Hn st Hfar.
  assert (overlap_fraction q M = Ok (overlap_r q M)) as Hr
    by (apply overlap_fraction_spec; lia).
  rewrite <- flat_alphabet_eq in * by lia.
  destruct (plot_with_voronoi_no_origin (lattice_points st) q (overlap_r q M) M Hfar)
    as (e & He & Hdrawn & Hvor).
  exists e, (plot_with_voronoi (lattice_points st) q (overlap_r q M) M).1.
  split_and!.
  - rewrite (compare_codebooks_run G closest_point q M true (overlap_r q M)
               h_quantizer n_quantizer) by (done || lia).
    by rewrite <- He.
  - done.
  - intros vor Hv. apply Hvor; [|by rewrite Hv].
    intros Hnil. apply (f_equal length) in Hnil. revert Hnil. unfold st.
    rewrite compare_sweep_grid, sweep_lattice_points, length_fmap, length_grid.
    assert (0 < q ^ M) by (apply Z.pow_pos_nonneg; lia). cbn [length]. nia.
  - rewrite (compare_codebooks_run G closest_point q M false (overlap_r q M)
               h_quantizer n_quantizer) by (done || lia).
    cbn [fst snd mret py_ret]. by rewrite app_nil_r.
  - unfold report_lines. set_solver.
  - apply elem_of_report_duplicates.
  - apply elem_of_report_mismatches.
Qed.

End RunProperties.

(** ** Match and mismatch classification *)

Lemma np_isclose_spec atol a b :
  np_isclose atol a b = true
  ↔ (np_absolute (a - b) ≤ atol + Q2Qc 1e-5 * np_absolute b)%Qc.
Proof. unfold np_isclose, rtol. apply bool_decide_eq_true. Qed.

Lemma np_allclose_spec atol a b :
  np_allclose atol a b = true
  ↔ (np_absolute (a.1 - b.1) ≤ atol + Q2Qc 1e-5 * np_absolute b.1)%Qc
    ∧ (np_absolute (a.2 - b.2) ≤ atol + Q2Qc 1e-5 * np_absolute b.2)%Qc.
Proof. unfold np_allclose. by rewrite andb_true_iff, !np_isclose_spec. Qed.

Section Classification.
Variables (G : matrix) (h_quantizer n_quantizer : Quantizer) (d : point).

#[local] Abbreviation l_p := (perturbed G d).
#[local] Abbreviation dec := (h_decode G h_quantizer d).
#[local] Abbreviation l_dec := (n_decode G n_quantizer d).


End Classification.

(** ** The shaping-region polygons *)

Lemma overlap_r_closed (q M : Z) :
  2 ≤ q → 1 ≤ M →
  (this (overlap_r q M)
   == (1 - (1 # Z.to_pos (q ^ (M - 1)))) * (1 # Z.to_pos (q - 1)))%Q.
Proof.
  intros Hq HM. unfold overlap_r. Qc_to_Q.
  assert (0 < q ^ (M - 1)) as HP by (apply Z.pow_pos_nonneg; lia).
  replace (1 - M) with (- (M - 1)) by lia.
  rewrite Qpower_opp, <- Zpower_Qpower by lia.
  destruct (q ^ (M - 1)) as [|p|p] eqn:HPe; try lia.
  destruct (q - 1) as [|k|k] eqn:Hk; try lia.
  replace q with (Z.pos k + 1) by lia.
  rewrite inject_Z_plus. cbn [Z.to_pos].
  setoid_replace (inject_Z (Z.pos k) + inject_Z 1 - 1)%Q with (inject_Z (Z.pos k)) using relation Qeq by ring.
  reflexivity.
Qed.

Lemma overlap_r_bounds (q M : Z) :
  2 ≤ q → 1 ≤ M →
  (0 ≤ overlap_r q M)%Qc ∧ (overlap_r q M < 1)%Qc ∧ (2 ≤ M → (0 < overlap_r q M)%Qc).
Proof.
  intros Hq HM. pose proof (overlap_r_closed q M Hq HM) as Hr.
  assert (0 < q ^ (M - 1)) as HP by (apply Z.pow_pos_nonneg; lia).
  assert (2 ≤ M → 2 ≤ q ^ (M - 1)) as HP2.
  { intros. replace (M - 1) with (1 + (M - 2)) by lia.
    rewrite Z.pow_add_r, Z.pow_1_r by lia.
    assert (0 < q ^ (M - 2)) by (apply Z.pow_pos_nonneg; lia). nia. }
  change ((0 <= overlap_r q M)%Q ∧ (overlap_r q M < 1)%Q
          ∧ (2 ≤ M → (0 < overlap_r q M)%Q)).
  rewrite !Hr.
  destruct (q ^ (M - 1)) as [|p|p] eqn:HPe; try lia.
  destruct (q - 1) as [|k|k] eqn:Hk; try lia.
  cbn [Z.to_pos]. unfold Qle, Qlt. cbn.
  rewrite ?Pos2Z.inj_mul, ?Pos.mul_1_r.
  pose proof (Pos2Z.is_pos k). pose proof (Pos2Z.is_pos p).
  split_and!; try intros ?%HP2; nia.
Qed.

Lemma scale_relations (N r c : Qc) :
  (0 < N)%Qc → (0 ≤ r)%Qc → (r < 1)%Qc →
  (N * (1 + r) * c = (1 + r) / (1 - r) * (N * (1 - r) * c))%Qc
  ∧ between (N * (1 - r) * c) (N * c) (N * (1 + r) * c)
  ∧ ((0 < r)%Qc → c ≠ 0%Qc →
     strictly_between (N * (1 - r) * c) (N * c) (N * (1 + r) * c)).
Proof.
  intros HN Hr0 Hr1. split_and!.
  - field. intros Heq. apply (Qclt_not_eq _ _ Hr1).
    assert (1 - r = 0)%Qc as Heq' by exact Heq.
    replace r with (1 - (1 - r))%Qc by ring. rewrite Heq'. ring.
  - unfold between. destruct (Qclt_le_dec c 0) as [Hc|Hc]; [right|left];
      Qc_to_Q.
    + assert (N * c <= 0)%Q by nra. assert (r * (N * c) <= 0)%Q by nra. split; lra.
    + assert (0 <= N * c)%Q by nra. assert (0 <= r * (N * c))%Q by nra. split; lra.
  - intros Hr Hc. unfold strictly_between.
    destruct (Qc_dec c 0) as [[Hlt|Hgt]|Heq]; [right|left|done];
      Qc_to_Q.
    + assert (N * c < 0)%Q by nra. assert (r * (N * c) < 0)%Q by nra. split; lra.
    + assert (0 < N * c)%Q by nra. assert (0 < r * (N * c))%Q by nra. split; lra.
Qed.

Lemma overlap_r_depth_one (q : Z) : 2 ≤ q → overlap_r q 1 = 0%Qc.
Proof.
  intros Hq. apply Qc_is_canon. rewrite (overlap_r_closed q 1) by lia.
  replace (q ^ (1 - 1)) with 1 by (by rewrite Z.sub_diag, Z.pow_0_r).
  change (this 0%Qc) with 0%Q. cbn [Z.to_pos]. ring.
Qed.

Lemma shaping_polygons_nonempty (q M : Z) (r : Qc) (v0 : point) (rest : list point) :
  0 ≤ M →
  shaping_polygons q r M (v0 :: rest)
  = Ok (np_scale (Qc_of_Z (q ^ M) * (1 - r))%Qc <$> (v0 :: rest) ++ [v0],
        np_scale (Qc_of_Z (q ^ M) * (1 + r))%Qc <$> (v0 :: rest) ++ [v0],
        np_scale (Qc_of_Z (q ^ M)) <$> (v0 :: rest) ++ [v0]).
Proof.
  intros HM. unfold shaping_polygons, py_pow. rewrite decide_True by done.
  cbn [to_float]. by rewrite !fmap_app.
Qed.



(** ** The definitions at work on the laboratory instance *)








(** C6 fails at [M = 0]: the run is not rejected, it sweeps the single
    index pair and reports one point. *)
Lemma degenerate_depth_counterexample :
  (2 = 1 ∨ 0 = 0)
  ∧ (compare_codebooks (H := lab 0%Qc 0%Qc) Z2 nearest_Z2 2 0 false).2 = Ok tt
  ∧ ¬ (∃ e, (compare_codebooks (H := lab 0%Qc 0%Qc) Z2 nearest_Z2 2 0 false).2 = Raise e)
  ∧ (compare_codebooks (H := lab 0%Qc 0%Qc) Z2 nearest_Z2 2 0 false).1 !! 2%nat
    = Some (Stdout (UniquePoints 1)).
Proof.
  assert ((compare_codebooks (H := lab 0%Qc 0%Qc) Z2 nearest_Z2 2 0 false).2 = Ok tt)
    as Hok by (by vm_compute).
  split_and!; [by right|done| |by vm_compute].
  intros [e He]. by rewrite Hok in He.
Qed.

Lemma degenerate_parameters_witness :
  1 = 1
  ∧ compare_codebooks (H := lab 0%Qc 0%Qc) Z2 nearest_Z2 1 2 true
    = ([], Raise ZeroDivisionError).
Proof.
  split; [reflexivity|].
  exact (proj1 (degenerate_parameters (H := lab 0%Qc 0%Qc) Z2 nearest_Z2 1 2 true) eq_refl).
Defined.

Lemma rendering_failure_keeps_report_witness :
  2 ≤ 2 ∧ 1 ≤ 1
  ∧ (∀ p, p ∈ lattice_points
              (compare_sweep Z2 (offset_quantizer (2 ^ 1) (Qc_of_Z 5))
                 (offset_quantizer (Qfloor (flat_alphabet 2 1)) 0%Qc) lab_d (2 ^ 1)) →
          np_allclose (Q2Qc 1e-2) p (0%Qc, 0%Qc) = false)
  ∧ ∃ e, (compare_codebooks (H := lab (Qc_of_Z 5) 0%Qc) Z2 nearest_Z2 2 1 true).2 = Raise e.
Proof.
  assert (2 ≤ 2) as Hq by lia. assert (1 ≤ 1) as HM by lia.
  assert (∀ p, p ∈ lattice_points
              (compare_sweep Z2 (offset_quantizer (2 ^ 1) (Qc_of_Z 5))
                 (offset_quantizer (Qfloor (flat_alphabet 2 1)) 0%Qc) lab_d (2 ^ 1)) →
          np_allclose (Q2Qc 1e-2) p (0%Qc, 0%Qc) = false) as Hfar.
  { rewrite compare_sweep_grid, sweep_lattice_points.
    change (grid (2 ^ 1)) with [(0, 0); (0, 1); (1, 0); (1, 1)].
    intros p Hp. cbn [fmap list_fmap] in Hp.
    repeat (apply elem_of_cons in Hp as [->|Hp]; [by vm_compute|]).
    by apply elem_of_nil in Hp. }
  split_and!; [done|done|done|].
  destruct (rendering_failure_keeps_report (H := lab (Qc_of_Z 5) 0%Qc) Z2 nearest_Z2 2 1
              _ _ Hq HM eq_refl eq_refl Hfar)
    as (e & drawn & Hrun & _).
  exists e. by rewrite Hrun.
Defined.


Lemma duplicate_count_order_independent_witness :
  2 ≤ 2 ∧ 1 ≤ 1
  ∧ length (duplicates (compare_sweep G_sum mod2_quantizer mod2_quantizer lab_d (2 ^ 1)))
    = length (duplicates
        (compare_sweep_column_major G_sum mod2_quantizer mod2_quantizer lab_d (2 ^ 1))).
Proof.
  assert (2 ≤ 2) as Hq by lia. assert (1 ≤ 1) as HM by lia.
  split_and!; [done|done|].
  exact (duplicate_count_order_independent G_sum mod2_quantizer mod2_quantizer lab_d
           2 1 Hq HM).
Defined.

(** The order of the loops does change which pair a record names as first
    seen: [(0, 1)] and [(1, 0)] decode to the same point under [G_sum]. *)
Example first_seen_depends_on_order :
  (snd <$> duplicates (compare_sweep G_sum mod2_quantizer mod2_quantizer lab_d 2))
  = [(1, 0); (1, 1)]
  ∧ (snd ∘ fst <$> duplicates (compare_sweep G_sum mod2_quantizer mod2_quantizer lab_d 2))
    = [(0, 1); (0, 0)]
  ∧ (snd <$> duplicates
       (compare_sweep_column_major G_sum mod2_quantizer mod2_quantizer lab_d 2))
    = [(0, 1); (1, 1)]
  ∧ (snd ∘ fst <$> duplicates
       (compare_sweep_column_major G_sum mod2_quantizer mod2_quantizer lab_d 2))
    = [(1, 0); (0, 0)].
Proof. by vm_compute. Qed.

Lemma sweep_count_invariant_witness :
  2 ≤ 2 ∧ 1 ≤ 1 ∧ (3 ≤ length (grid (2 ^ 1)))%nat
  ∧ (size (point_map
        (sweep_list G_sum mod2_quantizer mod2_quantizer lab_d (take 3 (grid (2 ^ 1)))))
     + length (duplicates
        (sweep_list G_sum mod2_quantizer mod2_quantizer lab_d (take 3 (grid (2 ^ 1))))))%nat
    = 3%nat.
Proof.
  assert (2 ≤ 2) as Hq by lia. assert (1 ≤ 1) as HM by lia.
  assert (3 ≤ length (grid (2 ^ 1)))%nat as Hk by (vm_compute; lia).
  split_and!; [done|done|done|].
  exact (proj1 (sweep_count_invariant G_sum mod2_quantizer mod2_quantizer lab_d 2 1 Hq HM)
           3%nat Hk).
Defined.

(** ** generate_codebook *)

Lemma foldl_snoc_each {A B} (f : B → A) (init : list A) (l : list B) :
  foldl (λ acc x, acc ++ [f x]) init l = init ++ (f <$> l).
Proof.
  revert init. induction l as [|x l IH]; intros init; cbn [foldl fmap list_fmap].
  - by rewrite app_nil_r.
  - by rewrite IH, <- app_assoc.
Qed.

Lemma codebook_loops G quantizer q :
  for_each (range q) (λ i,
    for_each (range q) (λ j, codebook_body G quantizer i j)) []
  = codebook_point G quantizer <$> grid q.
Proof.
  unfold for_each, grid.
  rewrite <- (app_nil_l (codebook_point G quantizer <$> _)).
  rewrite <- (foldl_snoc_each (codebook_point G quantizer)).
  rewrite foldl_bind. apply foldl_ext_fun. intros acc i.
  by rewrite foldl_fmap.
Qed.

Lemma np_add_zero p : np_add p (0%Qc, 0%Qc) = p.
Proof. destruct p as [x y]. unfold np_add. cbn [fst snd]. f_equal; ring. Qed.

Section CodebookProperties.
Context `{Collaborators}.
Variables (G : matrix) (closest_point : point → point).

Lemma generate_codebook_run q (with_plot : bool) quantizer :
  NQuantizer G closest_point (Qc_of_Z q) 1%Qc 1%Qc = Ok quantizer →
  let points := codebook_point G quantizer <$> grid q in
  generate_codebook G closest_point q with_plot
  = if with_plot then
      match points with
      | [] => ([Construct_N (Qc_of_Z q) 1%Qc 1%Qc], Raise IndexError)
      | _ => ([Construct_N (Qc_of_Z q) 1%Qc 1%Qc; Scatter points], Ok points)
      end
    else ([Construct_N (Qc_of_Z q) 1%Qc 1%Qc], Ok points).
Proof.
  intros Hn points. unfold generate_codebook.
  rewrite new_NQuantizer_spec, Hn, bind_Ok, codebook_loops. fold points.
  destruct with_plot; [|done].
  unfold plot_lattice_points. by destruct points.
Qed.

(** X1.  For [q > 0] and a flat quantizer that is built,
    [generate_codebook] returns [q * q] points; point [i * q + j] is the
    quantizer's round trip of the unperturbed lattice point [G (i, j)]
    (row-major order).  The only events are the constructor call and, with
    plotting, one scatter of the returned points. *)
Theorem generate_codebook_points (q : Z) (quantizer : Quantizer) :
  0 < q →
  NQuantizer G closest_point (Qc_of_Z q) 1%Qc 1%Qc = Ok quantizer →
  ∃ points,
    generate_codebook G closest_point q false
    = ([Construct_N (Qc_of_Z q) 1%Qc 1%Qc], Ok points)
    ∧ generate_codebook G closest_point q true
      = ([Construct_N (Qc_of_Z q) 1%Qc 1%Qc; Scatter points], Ok points)
    ∧ length points = Z.to_nat (q * q)
    ∧ ∀ i j, 0 ≤ i < q → 0 ≤ j < q →
        points !! Z.to_nat (i * q + j) = Some (roundtrip quantizer (np_dot G i j)).
Proof.
  intros Hq Hn. exists (codebook_point G quantizer <$> grid q).
  assert (length (codebook_point G quantizer <$> grid q) = Z.to_nat (q * q)) as Hlen.
  { rewrite length_fmap, length_grid. rewrite Z2Nat.inj_mul; lia. }
  split_and!.
  - by rewrite (generate_codebook_run q false quantizer).
  - rewrite (generate_codebook_run q true quantizer) by done.
    destruct (codebook_point G quantizer <$> grid q) eqn:Hpts; [|done].
    cbn [length] in Hlen. nia.
  - done.
  - intros i j Hi Hj. rewrite list_lookup_fmap.
    by rewrite (proj2 (lookup_grid q _ i j)).
Qed.

(** X2.  [generate_codebook] stops with the constructor's exception when
    the flat quantizer cannot be built.  For [q <= 0] both loops are empty:
    without plotting the codebook returned is empty, and with plotting
    [plot_lattice_points] raises [IndexError] on slicing the empty array,
    before any drawing. *)
Theorem generate_codebook_degenerate (q : Z) (with_plot : bool) :
  match NQuantizer G closest_point (Qc_of_Z q) 1%Qc 1%Qc with
  | Raise e =>
    generate_codebook G closest_point q with_plot
    = ([Construct_N (Qc_of_Z q) 1%Qc 1%Qc], Raise e)
  | Ok _ =>
    q ≤ 0 →
    generate_codebook G closest_point q with_plot
    = ([Construct_N (Qc_of_Z q) 1%Qc 1%Qc],
       if with_plot then Raise IndexError else Ok [])
  end.
Proof.
  destruct (NQuantizer G closest_point (Qc_of_Z q) 1%Qc 1%Qc) as [quantizer|e] eqn:Hn.
  - intros Hq. rewrite (generate_codebook_run q with_plot quantizer) by done.
    assert (grid q = []) as ->.
    { apply length_zero_iff_nil. rewrite length_grid. lia. }
    by destruct with_plot.
  - unfold generate_codebook. by rewrite new_NQuantizer_spec, Hn, bind_Raise.
Qed.

(** X3.  The codebook of [generate_codebook] is the point sequence the
    sweep of [compare_codebooks] collects with the same quantizer in the
    hierarchical slot, grid size [q] and a zero offset. *)
Theorem generate_codebook_is_unperturbed_sweep (q : Z) (quantizer other : Quantizer) :
  NQuantizer G closest_point (Qc_of_Z q) 1%Qc 1%Qc = Ok quantizer →
  (generate_codebook G closest_point q false).2
  = Ok (lattice_points (compare_sweep G quantizer other (0%Qc, 0%Qc) q)).
Proof.
  intros Hn. rewrite (generate_codebook_run q false quantizer) by done.
  cbn [snd]. f_equal.
  rewrite compare_sweep_grid, sweep_lattice_points.
  apply list_fmap_ext. intros _ ij _.
  unfold codebook_point, h_decode, perturbed. by rewrite np_add_zero.
Qed.

End CodebookProperties.

(** ** More on the sweep *)

Lemma size_list_to_set_le `{Countable A} (l : list A) :
  (size (list_to_set l : gset A) ≤ length l)%nat.
Proof.
  induction l as [|x l IH]; [done|].
  rewrite list_to_set_cons. cbn [length].
  rewrite size_union_alt, size_singleton.
  assert (size ((list_to_set l : gset A) ∖ {[x]}) ≤ size (list_to_set l : gset A))%nat
    by (apply subseteq_size; set_solver).
  lia.
Qed.

Lemma size_list_to_set_NoDup `{Countable A} (l : list A) :
  size (list_to_set l : gset A) = length l ↔ NoDup l.
Proof.
  split; [|apply size_list_to_set].
  induction l as [|x l IH]; [constructor|].
  rewrite list_to_set_cons. cbn [length]. intros Hsize.
  pose proof (size_list_to_set_le l) as Hle.
  destruct (decide (x ∈ l)) as [Hin|Hnotin].
  - exfalso.
    assert ({[x]} ∪ list_to_set l = (list_to_set l : gset A)) as Heq by set_solver.
    rewrite Heq in Hsize. lia.
  - constructor; [done|]. apply IH.
    rewrite size_union, size_singleton in Hsize by set_solver. lia.
Qed.

Lemma size_list_to_set_fmap_le `{Countable A, Countable B} (f : A → B) (l : list A) :
  (size (list_to_set (f <$> l) : gset B) ≤ length (remove_dups l))%nat.
Proof.
  assert ((list_to_set (f <$> l) : gset B) = list_to_set (f <$> remove_dups l)) as ->.
  { apply set_eq. intros y. rewrite !elem_of_list_to_set, !list_elem_of_fmap.
    by setoid_rewrite elem_of_remove_dups. }
  etrans; [apply size_list_to_set_le|]. by rewrite length_fmap.
Qed.

Section SweepCounting.
Variables (G : matrix) (h_quantizer n_quantizer : Quantizer) (d : point).

#[local] Abbreviation sweep := (sweep_list G h_quantizer n_quantizer d).
#[local] Abbreviation key := (dec_tuple G h_quantizer d).

Lemma classified_length ps :
  (length (omap (match_at G h_quantizer n_quantizer d) ps)
   + length (omap (mismatch_at G h_quantizer n_quantizer d) ps))%nat
  = length (filter (λ ij, flat_roundtrips G n_quantizer d ij = true) ps).
Proof.
  induction ps as [|ij ps IH]; [done|].
  cbn [omap list_omap]. unfold match_at at 1, mismatch_at at 1.
  destruct (flat_roundtrips G n_quantizer d ij) eqn:Hflat; cbn [andb].
  - rewrite filter_cons_True by done.
    destruct (decodes_agree _ _ _ _ _); cbn [negb length]; lia.
  - rewrite filter_cons_False by (by rewrite Hflat). done.
Qed.

Lemma sweep_duplicates_sublist ps : (snd <$> duplicates (sweep ps)) `sublist_of` ps.
Proof.
  induction ps as [|ij ps IH] using rev_ind; [done|].
  rewrite sweep_duplicates_snoc, fmap_app.
  destruct (list_find _ ps) as [[t f]|]; cbn [fmap list_fmap snd].
  - by apply sublist_app.
  - rewrite app_nil_r. by apply sublist_inserts_r.
Qed.

(** A pair is the first-seen value of a key exactly when no duplicate
    record names it as the later pair. *)
Lemma first_seen_or_duplicate ps p :
  NoDup ps → p ∈ ps →
  (∃ k, point_map (sweep ps) !! k = Some p)
  ↔ ¬ ∃ k f, (k, f, p) ∈ duplicates (sweep ps).
Proof.
  intros Hnd [t Ht]%list_elem_of_lookup. split.
  - intros [k Hk] (k' & f & Hdup).
    apply elem_of_sweep_duplicates in Hdup
      as (t1 & t' & p1 & f1 & Heq & Ht1 & Hlt & Hfind).
    pose proof (f_equal snd Heq) as Hp. cbn [snd] in Hp. subst p1.
    rewrite sweep_point_map in Hk.
    destruct (list_find (λ x, key x = k) ps) as [[t0 p0]|] eqn:Hfind0; [|done].
    cbn in Hk. injection Hk as ->.
    pose proof Hfind0 as (Ht0 & Hkey & _)%list_find_Some. subst k.
    rewrite Hfind0 in Hfind. injection Hfind as -> _.
    pose proof (NoDup_lookup _ _ _ _ Hnd Ht0 Ht1). lia.
  - intros Hnodup.
    destruct (list_find_elem_of (λ x, key x = key p) ps p) as [[t' f] Hfind];
      [by eapply list_elem_of_lookup_2|done|].
    exists (key p). rewrite sweep_point_map, Hfind. cbn. f_equal.
    pose proof Hfind as (Ht' & Hkf & Hmin)%list_find_Some.
    destruct (decide (t' < t)%nat) as [Hlt|Hge].
    + exfalso. apply Hnodup. exists (key p), f.
      apply elem_of_sweep_duplicates. by exists t, t', p, f.
    + destruct (decide (t' = t)) as [->|Hne]; [congruence|].
      exfalso. apply (Hmin t p); [done|lia|done].
Qed.

End SweepCounting.

(** ** Rounding to 9 decimals *)

Lemma np_absolute_le (x y : Qc) :
  (np_absolute x ≤ y)%Qc ↔ (- y ≤ x)%Qc ∧ (x ≤ y)%Qc.
Proof.
  unfold np_absolute, Qcabs.Qcabs, Qcle, Qcopp, Q2Qc. cbn [this].
  rewrite Qred_correct. apply Qabs_Qle_condition.
Qed.

Lemma rint_error (x : Qc) : (np_absolute (Qc_of_Z (rint x) - x) ≤ Q2Qc 0.5)%Qc.
Proof.
  apply np_absolute_le. unfold rint.
  pose proof (Qfloor_le x) as Hlo. pose proof (Qlt_floor x) as Hhi.
  rewrite inject_Z_plus in Hhi.
  set (f := Qfloor x) in *.
  destruct (decide (x - Qc_of_Z f < Q2Qc 0.5)%Qc) as [Hlt|Hge];
    [|destruct (decide (Q2Qc 0.5 < x - Qc_of_Z f)%Qc) as [Hgt|Hle];
      [|destruct (Z.even f)]];
    rewrite ?Z2Qc_inj_add; Qc_to_Q; change (inject_Z 1) with 1%Q in *; split; lra.
Qed.

Lemma np_round1_error (x : Qc) :
  (np_absolute (np_round1 9 x - x) ≤ Q2Qc 5e-10)%Qc.
Proof.
  pose proof (rint_error (x * Qc_of_Z (10 ^ Z.of_nat 9))) as Hr.
  apply np_absolute_le in Hr. apply np_absolute_le. unfold np_round1.
  set (r := rint _) in *. change (10 ^ Z.of_nat 9) with 1000000000 in *.
  Qc_to_Q. change (inject_Z 1000000000) with 1000000000%Q in *.
  destruct Hr as [Hr1 Hr2]. generalize dependent (inject_Z r). intros z Hz1 Hz2.
  change (/ 1000000000)%Q with (1 # 1000000000)%Q.
  assert (0.5 == 1 # 2)%Q as H5 by reflexivity.
  assert (5e-10 == 1 # 2000000000)%Q as H10 by reflexivity.
  rewrite H5 in Hz1, Hz2. rewrite H10. split; lra.
Qed.

Lemma same_round1_close (a b : Qc) :
  np_round1 9 a = np_round1 9 b → (np_absolute (a - b) ≤ Q2Qc 1e-9)%Qc.
Proof.
  intros Heq. pose proof (np_round1_error a) as Ha.
  pose proof (np_round1_error b) as Hb. rewrite Heq in Ha.
  apply np_absolute_le in Ha, Hb. apply np_absolute_le.
  generalize dependent (np_round1 9 b). intros r _ Ha Hb.
  Qc_to_Q.
  assert (5e-10 == 1 # 2000000000)%Q as H5 by reflexivity.
  assert (1e-9 == 1 # 1000000000)%Q as H1 by reflexivity.
  rewrite H5 in Ha, Hb. rewrite H1. split; lra.
Qed.

Lemma within_abs_allclose (a b : point) :
  within_abs (Q2Qc 1e-9) a b → np_allclose (Q2Qc 1e-7) a b = true.
Proof.
  intros [H1 H2]. apply np_allclose_spec.
  assert (∀ x y : Qc, (np_absolute x ≤ Q2Qc 1e-9)%Qc →
            (np_absolute x ≤ Q2Qc 1e-7 + Q2Qc 1e-5 * np_absolute y)%Qc) as Hweak.
  { intros x y Hx. pose proof (Qcabs.Qcabs_nonneg y) as Hy.
    apply Qcle_trans with (Q2Qc 1e-9); [done|].
    apply Qcle_trans with (Q2Qc 1e-7 + 0)%Qc.
    - rewrite Qcplus_0_r. by vm_compute.
    - apply Qcplus_le_mono_l.
      replace 0%Qc with (Q2Qc 1e-5 * 0)%Qc by ring.
      rewrite !(Qcmult_comm (Q2Qc 1e-5)).
      apply Qcmult_le_compat_r; [done|by vm_compute]. }
  split; by apply Hweak.
Qed.

Section SweepTheorems.
Variables (G : matrix) (h_quantizer n_quantizer : Quantizer) (d : point).

#[local] Abbreviation key := (dec_tuple G h_quantizer d).

(** X4.  Every swept pair whose flat decode passes the round-trip test is
    classified once, as a match or as a mismatch, and no other pair is
    classified: the two lists together are as long as the number of such
    pairs, hence never longer than the codebook. *)
Theorem classification_count (n : Z) :
  let st := compare_sweep G h_quantizer n_quantizer d n in
  (length (matches st) + length (mismatches st))%nat
  = length (filter (λ ij, flat_roundtrips G n_quantizer d ij = true) (grid n))
  ∧ (length (matches st) + length (mismatches st) ≤ length (lattice_points st))%nat.
Proof.
  intros st. unfold st.
  rewrite compare_sweep_grid, sweep_matches, sweep_mismatches, sweep_lattice_points.
  rewrite classified_length, length_fmap. split; [done|]. apply length_filter.
Qed.

(** X5.  The later pairs of the duplicate records appear in sweep order
    and without repetition: a pair yields at most one duplicate record. *)
Theorem duplicates_in_sweep_order (n : Z) :
  let st := compare_sweep G h_quantizer n_quantizer d n in
  (snd <$> duplicates st) `sublist_of` grid n
  ∧ NoDup (snd <$> duplicates st).
Proof.
  intros st. unfold st. rewrite compare_sweep_grid.
  pose proof (sweep_duplicates_sublist G h_quantizer n_quantizer d (grid n)) as Hsub.
  split; [exact Hsub|]. by apply (sublist_NoDup _ (grid n)); [apply NoDup_grid|].
Qed.

(** X6.  Every swept pair is either the first-seen value of some entry of
    the rounded-point map or the later pair of a duplicate record, never
    both. *)
Theorem first_seen_partition (n : Z) (p : Z * Z) :
  in_grid n p →
  let st := compare_sweep G h_quantizer n_quantizer d n in
  (∃ k, point_map st !! k = Some p) ↔ ¬ ∃ k first, (k, first, p) ∈ duplicates st.
Proof.
  intros Hin st. unfold st. rewrite compare_sweep_grid.
  apply first_seen_or_duplicate; [apply NoDup_grid|by apply elem_of_grid].
Qed.

(** X7.  The number of exactly-distinct points that is printed is at
    least the number of distinct rounded points (the size of the map) and
    at most the number of points, so it is at least the number of points
    minus the number of duplicate records; when no duplicate is recorded
    it is the full [n * n]. *)
Theorem unique_count_bounds (n : Z) :
  let st := compare_sweep G h_quantizer n_quantizer d n in
  (size (point_map st) ≤ length (np_unique (lattice_points st)))%nat
  ∧ (length (np_unique (lattice_points st)) ≤ length (lattice_points st))%nat
  ∧ (length (lattice_points st) - length (duplicates st)
     ≤ length (np_unique (lattice_points st)))%nat
  ∧ (duplicates st = [] →
     length (np_unique (lattice_points st)) = (Z.to_nat n * Z.to_nat n)%nat).
Proof.
  intros st.
  assert (size (point_map st) ≤ length (np_unique (lattice_points st)))%nat as Hlow.
  { unfold st. rewrite compare_sweep_grid. rewrite <- size_dom, sweep_dom.
    rewrite sweep_lattice_points. unfold np_unique.
    etrans; [|apply (size_list_to_set_fmap_le (np_round 9))].
    by rewrite <- list_fmap_compose. }
  assert (length (np_unique (lattice_points st)) ≤ length (lattice_points st))%nat
    as Hup by apply length_remove_dups_le.
  assert (size (point_map st) + length (duplicates st) = length (lattice_points st))%nat
    as Hcount.
  { unfold st. rewrite compare_sweep_grid, sweep_count, sweep_lattice_points.
    by rewrite length_fmap. }
  assert (length (lattice_points st) = Z.to_nat n * Z.to_nat n)%nat as Hlen.
  { unfold st. by rewrite compare_sweep_grid, sweep_lattice_points, length_fmap, length_grid. }
  split_and!; [done|done|lia|].
  intros Hnil. rewrite Hnil in Hcount. cbn [length] in Hcount. lia.
Qed.

(** X8.  No duplicate record is emitted (and "All points are unique." is
    printed) exactly when the 9-decimal roundings of the decoded points of
    the grid are pairwise distinct. *)
Theorem no_duplicates_iff (n : Z) :
  let st := compare_sweep G h_quantizer n_quantizer d n in
  duplicates st = [] ↔ NoDup (key <$> grid n).
Proof.
  intros st. unfold st. rewrite compare_sweep_grid.
  rewrite <- length_zero_iff_nil, sweep_duplicates_length.
  rewrite <- size_list_to_set_NoDup, length_fmap.
  pose proof (size_list_to_set_le (key <$> grid n)) as Hle.
  rewrite length_fmap in Hle. lia.
Qed.


End SweepTheorems.

(** ** The arithmetic of lines 46 and 49 *)

Lemma pow_geometric (q : Z) (m : nat) :
  ∃ k, q ^ Z.of_nat m = 1 + (q - 1) * k ∧ (1 ≤ q → 0 ≤ k) ∧ (2 ≤ q → (k = 0 ↔ m = 0%nat)).
Proof.
  induction m as [|m (k & Hk & Hpos & Hzero)].
  - exists 0. split_and!; [by rewrite Z.pow_0_r; lia|lia|done].
  - exists (q * k + 1). rewrite Nat2Z.inj_succ, Z.pow_succ_r, Hk by lia.
    split_and!; [ring|intros; specialize (Hpos ltac:(lia)); nia|].
    intros Hq. specialize (Hpos ltac:(lia)). split; [nia|done].
Qed.



(** ** Runs outside [q >= 2], [M >= 1] *)

Section EdgeRuns.
Context `{Collaborators}.
Variables (G : matrix) (closest_point : point → point).

(** X12.  With a negative depth [M] the run always ends with an exception
    and prints nothing: the exception of line 46, of a constructor, or
    [ZeroDivisionError] for [q = 0] at line 49; when both quantizers are
    built, [q ** M] is a float and [range] raises [TypeError] before the
    first iteration. *)
Theorem negative_depth_raises (q M : Z) (with_plot : bool) :
  M < 0 →
  compare_codebooks G closest_point q M with_plot
  = match overlap_fraction q M with
    | Raise e => ([], Raise e)
    | Ok r =>
      match HQuantizer G closest_point q 1%Qc 1%Qc M with
      | Raise e => ([Construct_H q 1%Qc 1%Qc M], Raise e)
      | Ok _ =>
        if decide (q = 0) then ([Construct_H q 1%Qc 1%Qc M], Raise ZeroDivisionError)
        else
          let alphabet := (/ Qc_of_Z (q ^ (- M)) * (1 - r))%Qc in
          ([Construct_H q 1%Qc 1%Qc M; Construct_N alphabet 1%Qc 1%Qc],
           match NQuantizer G closest_point alphabet 1%Qc 1%Qc with
           | Raise e => Raise e
           | Ok _ => Raise TypeError
           end)
      end
    end.
Proof.
  intros HM. unfold compare_codebooks.
  destruct (overlap_fraction q M) as [r|e]; [|done].
  rewrite bind_lift_Ok, new_HQuantizer_spec.
  destruct (HQuantizer G closest_point q 1%Qc 1%Qc M) as [h|e]; [|done].
  rewrite bind_Ok. unfold py_pow. rewrite decide_False by lia.
  destruct (decide (q = 0)) as [->|Hq]; [done|].
  rewrite bind_lift_Ok, new_NQuantizer_spec. cbn [to_float fst snd].
  by destruct (NQuantizer G closest_point _ 1%Qc 1%Qc) as [nq|e].
Qed.

Lemma compare_sweep_empty h_quantizer n_quantizer d n :
  n ≤ 0 → compare_sweep G h_quantizer n_quantizer d n = sweep_init.
Proof.
  intros Hn. rewrite compare_sweep_grid.
  assert (grid n = []) as ->; [|done].
  apply length_zero_iff_nil. rewrite length_grid. lia.
Qed.

(** X13.  When [q ** M <= 0] (a zero or negative [q]) and the set-up
    succeeds, the sweep is empty: the report is "0 unique points", "All
    points are unique." and "All points matched correctly.", and with
    plotting the run then raises [IndexError] without any drawing call. *)
Theorem empty_sweep_run (q M : Z) (with_plot : bool) (r : Qc)
    (h_quantizer n_quantizer : Quantizer) :
  0 ≤ M → q ^ M ≤ 0 →
  overlap_fraction q M = Ok r →
  HQuantizer G closest_point q 1%Qc 1%Qc M = Ok h_quantizer →
  NQuantizer G closest_point (Qc_of_Z (q ^ M) * (1 - r))%Qc 1%Qc 1%Qc = Ok n_quantizer →
  compare_codebooks G closest_point q M with_plot
  = ([Construct_H q 1%Qc 1%Qc M;
      Construct_N (Qc_of_Z (q ^ M) * (1 - r))%Qc 1%Qc 1%Qc;
      Stdout (UniquePoints 0); Stdout AllUnique; Stdout AllMatched],
     if with_plot then Raise IndexError else Ok tt).
Proof.
  intros HM Hn Hr Hh Hnq.
  rewrite (compare_codebooks_run G closest_point q M with_plot r h_quantizer n_quantizer)
    by done.
  rewrite compare_sweep_empty by done. by destruct with_plot.
Qed.

(** X14.  For all arguments, the events of a run come in this order:
    the hierarchical then the flat constructor call (possibly cut short),
    then the printed lines, then drawing calls.  Lines are printed only
    after both constructor calls, and drawing happens only after the report
    and only with plotting. *)
Theorem events_in_order (q M : Z) (with_plot : bool) :
  ∃ built lines drawn,
    (compare_codebooks G closest_point q M with_plot).1
    = built ++ (Stdout <$> lines) ++ drawn
    ∧ (built = [] ∨ built = [Construct_H q 1%Qc 1%Qc M]
       ∨ ∃ alphabet, built = [Construct_H q 1%Qc 1%Qc M; Construct_N alphabet 1%Qc 1%Qc])
    ∧ (lines ≠ [] → length built = 2%nat)
    ∧ (drawn ≠ [] → lines ≠ [] ∧ with_plot = true)
    ∧ Forall (λ ev, is_drawing ev = true) drawn.
Proof.
  unfold compare_codebooks.
  destruct (overlap_fraction q M) as [r|e];
    [rewrite bind_lift_Ok|by exists [], [], []; split_and!; auto].
  rewrite new_HQuantizer_spec.
  destruct (HQuantizer G closest_point q 1%Qc 1%Qc M) as [h|e];
    [rewrite bind_Ok|by exists [Construct_H q 1%Qc 1%Qc M], [], []; split_and!; auto].
  destruct (py_pow q M) as [qM|e];
    [rewrite bind_lift_Ok|by exists [Construct_H q 1%Qc 1%Qc M], [], []; split_and!; auto].
  rewrite new_NQuantizer_spec.
  set (alphabet := (to_float qM * (1 - r))%Qc).
  destruct (NQuantizer G closest_point alphabet 1%Qc 1%Qc) as [nq|e];
    [rewrite bind_Ok|
     by exists [Construct_H q 1%Qc 1%Qc M; Construct_N alphabet 1%Qc 1%Qc], [], [];
       split_and!; eauto].
  destruct (operator_index qM) as [n|e];
    [rewrite bind_lift_Ok|
     by exists [Construct_H q 1%Qc 1%Qc M; Construct_N alphabet 1%Qc 1%Qc], [], [];
       split_and!; eauto].
  rewrite report_spec, bind_Ok. cbn [fst snd].
  set (st := compare_sweep _ _ _ _ _).
  exists [Construct_H q 1%Qc 1%Qc M; Construct_N alphabet 1%Qc 1%Qc], (report_lines st),
    (if with_plot then (plot_with_voronoi (lattice_points st) q r M).1 else []).
  split_and!.
  - by destruct with_plot.
  - eauto.
  - done.
  - intros Hd. split; [by unfold report_lines|]. by destruct with_plot.
  - destruct with_plot; [apply plot_with_voronoi_drawing|constructor].
Qed.

End EdgeRuns.

(** ** Indexing and the rendering path *)

Lemma getitem_Ok {A} (l : list A) (k : Z) (x : A) :
  getitem l k = Ok x
  ↔ - Z.of_nat (length l) ≤ k < Z.of_nat (length l)
    ∧ l !! Z.to_nat (k mod Z.of_nat (length l)) = Some x.
Proof.
  unfold getitem. set (len := Z.of_nat (length l)).
  destruct (decide (k < 0)) as [Hneg|Hpos].
  - destruct (decide (0 ≤ k + len)) as [Hlo|Hlo].
    + replace (k mod len) with (k + len)
        by (apply Z.mod_unique with (-1); lia).
      destruct (l !! Z.to_nat (k + len)) as [y|] eqn:Hy.
      * split; [intros [= ->]; split; [lia|done]|by intros [_ [= ->]]].
      * split; [done|by intros [_ ?]].
    + split; [done|]. intros [? _]. lia.
  - rewrite decide_True by lia.
    destruct (l !! Z.to_nat k) as [y|] eqn:Hy.
    + pose proof (lookup_lt_Some _ _ _ Hy). rewrite Z.mod_small by lia.
      rewrite Hy. split; [intros [= ->]; split; [lia|done]|by intros [_ [= ->]]].
    + apply lookup_ge_None in Hy. split; [done|]. intros [? _]. lia.
Qed.

Lemma getitem_Raise {A} (l : list A) (k : Z) (e : exn) :
  getitem l k = Raise e
  ↔ e = IndexError ∧ ¬ (- Z.of_nat (length l) ≤ k < Z.of_nat (length l)).
Proof.
  destruct (getitem l k) as [x|e'] eqn:Hg.
  - apply getitem_Ok in Hg as [? _]. split; [done|]. by intros [_ ?].
  - assert (e' = IndexError) as ->.
    { unfold getitem in Hg. repeat case_match; congruence. }
    split; [intros [= <-]|by intros [-> _]]. split; [done|]. intros Hin.
    destruct (lookup_lt_is_Some_2 l
                (Z.to_nat (k mod Z.of_nat (length l)))) as [x Hx].
    { pose proof (Z.mod_pos_bound k (Z.of_nat (length l))). lia. }
    assert (getitem l k = Ok x) as Hok by (by apply getitem_Ok).
    congruence.
Qed.

(** X15.  Fancy indexing [vor.vertices[region]] succeeds exactly when
    every index [k] of the region satisfies [-len <= k < len]; the result
    then has one row per index, row [k mod len] of the array, so the index
    [-1] that marks a vertex at infinity silently selects the last vertex.
    Otherwise it raises [IndexError]. *)
Theorem np_take_bounds {A} (a : list A) (idx : list Z) :
  match np_take a idx with
  | Ok xs =>
    length xs = length idx
    ∧ ∀ t k, idx !! t = Some k →
        - Z.of_nat (length a) ≤ k < Z.of_nat (length a)
        ∧ xs !! t = a !! Z.to_nat (k mod Z.of_nat (length a))
  | Raise e =>
    e = IndexError
    ∧ ∃ k, k ∈ idx ∧ ¬ (- Z.of_nat (length a) ≤ k < Z.of_nat (length a))
  end.
Proof.
  induction idx as [|k idx IH]; [done|].
  cbn [np_take]. destruct (getitem a k) as [x|e] eqn:Hg.
  - apply getitem_Ok in Hg as [Hk Hx].
    destruct (np_take a idx) as [xs|e].
    + destruct IH as [Hlen Hall]. split; [cbn; lia|].
      intros [|t] k'; cbn; [intros [= <-]; by rewrite Hx|apply Hall].
    + destruct IH as (-> & k' & Hin & Hout). split; [done|].
      exists k'. split; [by right|done].
  - apply getitem_Raise in Hg as [-> Hout]. split; [done|].
    exists k. split; [by left|done].
Qed.



Section Rendering.
Context `{Collaborators}.

(** X18.  When the Voronoi diagram is built, a point near the origin
    exists, its region indices are in range and its cell is not empty,
    [plot_with_voronoi] makes exactly five drawing calls in this order: the
    scatter of the points, the green polygon scaled by [q^M (1 - r)], the
    orange one scaled by [q^M], the pink one scaled by [q^M (1 + r)], each
    the closed cell, and the save of the figure. *)
Theorem plot_with_voronoi_draws (points : list point) (q M : Z) (r_qM : Qc)
    (vor : voronoi) (origin_idx region_idx : Z) (region : list Z)
    (v0 : point) (rest : list point) :
  0 ≤ M →
  Voronoi points = Ok vor →
  origin_index points = Ok origin_idx →
  getitem (point_region vor) origin_idx = Ok region_idx →
  getitem (regions vor) region_idx = Ok region →
  np_take (vertices vor) region = Ok (v0 :: rest) →
  let base := (v0 :: rest) ++ [v0] in
  plot_with_voronoi points q r_qM M
  = ([Scatter points;
      Plot Green (np_scale (Qc_of_Z (q ^ M) * (1 - r_qM))%Qc <$> base);
      Plot Orange (np_scale (Qc_of_Z (q ^ M)) <$> base);
      Plot Pink (np_scale (Qc_of_Z (q ^ M) * (1 + r_qM))%Qc <$> base);
      Savefig M], Ok tt).
Proof.
  intros HM Hvor Ho Hpr Hreg Htake base. unfold plot_with_voronoi.
  destruct points as [|p points'].
  { by unfold origin_index in Ho. }
  rewrite bind_lift_Ok, bind_emit, Hvor, bind_lift_Ok, Ho, bind_lift_Ok.
  rewrite Hpr, bind_lift_Ok, Hreg, bind_lift_Ok, Htake, bind_lift_Ok.
  rewrite shaping_polygons_nonempty by done. rewrite bind_lift_Ok.
  by rewrite !bind_emit.
Qed.

End Rendering.

(** ** More runs on the laboratory instance *)

Lemma generate_codebook_points_witness :
  0 < 2
  ∧ NQuantizer (Collaborators := lab 0%Qc 0%Qc) Z2 nearest_Z2 (Qc_of_Z 2) 1%Qc 1%Qc
    = Ok (offset_quantizer (Qfloor (Qc_of_Z 2)) 0%Qc)
  ∧ ∃ points,
      (generate_codebook (H := lab 0%Qc 0%Qc) Z2 nearest_Z2 2 false).2 = Ok points
      ∧ length points = 4%nat.
Proof.
  assert (0 < 2) as Hq by lia.
  split_and!; [done|reflexivity|].
  destruct (generate_codebook_points (H := lab 0%Qc 0%Qc) Z2 nearest_Z2 2 _ Hq eq_refl)
    as (points & Hrun & _ & Hlen & _).
  exists points. by rewrite Hrun.
Defined.

Lemma generate_codebook_degenerate_witness :
  0 ≤ 0
  ∧ generate_codebook (H := lab 0%Qc 0%Qc) Z2 nearest_Z2 0 true
    = ([Construct_N (Qc_of_Z 0) 1%Qc 1%Qc], Raise IndexError).
Proof.
  assert (0 ≤ 0) as Hq by lia. split; [done|].
  exact (generate_codebook_degenerate (H := lab 0%Qc 0%Qc) Z2 nearest_Z2 0 true Hq).
Defined.

Lemma generate_codebook_is_unperturbed_sweep_witness :
  NQuantizer (Collaborators := lab 0%Qc 0%Qc) Z2 nearest_Z2 (Qc_of_Z 2) 1%Qc 1%Qc
  = Ok (offset_quantizer (Qfloor (Qc_of_Z 2)) 0%Qc)
  ∧ (generate_codebook (H := lab 0%Qc 0%Qc) Z2 nearest_Z2 2 false).2
    = Ok (lattice_points
            (compare_sweep Z2 (offset_quantizer (Qfloor (Qc_of_Z 2)) 0%Qc)
               shifted_quantizer (0%Qc, 0%Qc) 2)).
Proof.
  split; [reflexivity|].
  exact (generate_codebook_is_unperturbed_sweep (H := lab 0%Qc 0%Qc) Z2 nearest_Z2 2
           _ shifted_quantizer eq_refl).
Defined.

Lemma first_seen_partition_witness :
  in_grid 2 (0, 1)
  ∧ ((∃ k, point_map (compare_sweep G_sum mod2_quantizer mod2_quantizer lab_d 2) !! k
           = Some (0, 1))
     ↔ ¬ ∃ k first,
           (k, first, (0, 1))
           ∈ duplicates (compare_sweep G_sum mod2_quantizer mod2_quantizer lab_d 2)).
Proof.
  assert (in_grid 2 (0, 1)) as Hin by (unfold in_grid; cbn; lia).
  split; [done|].
  exact (first_seen_partition G_sum mod2_quantizer mod2_quantizer lab_d 2 (0, 1) Hin).
Defined.

Lemma unique_count_bounds_witness :
  duplicates (compare_sweep Z2 mod2_quantizer mod2_quantizer lab_d 2) = []
  ∧ length (np_unique
      (lattice_points (compare_sweep Z2 mod2_quantizer mod2_quantizer lab_d 2)))
    = (Z.to_nat 2 * Z.to_nat 2)%nat.
Proof.
  assert (duplicates (compare_sweep Z2 mod2_quantizer mod2_quantizer lab_d 2) = [])
    as Hnil by (by vm_compute).
  split; [done|].
  exact (proj2 (proj2 (proj2
    (unique_count_bounds Z2 mod2_quantizer mod2_quantizer lab_d 2))) Hnil).
Defined.



Lemma negative_depth_raises_witness :
  -1 < 0
  ∧ (compare_codebooks (H := lab 0%Qc 0%Qc) Z2 nearest_Z2 2 (-1) false).2
    = Raise TypeError.
Proof.
  assert (-1 < 0) as HM by lia. split; [done|].
  rewrite (negative_depth_raises (H := lab 0%Qc 0%Qc) Z2 nearest_Z2 2 (-1) false HM).
  by vm_compute.
Defined.

Lemma empty_sweep_run_witness :
  0 ≤ 1 ∧ 0 ^ 1 ≤ 0
  ∧ overlap_fraction 0 1 = Ok (overlap_r 0 1)
  ∧ (compare_codebooks (H := lab 0%Qc 0%Qc) Z2 nearest_Z2 0 1 true).2 = Raise IndexError.
Proof.
  assert (0 ≤ 1) as HM by lia. assert (0 ^ 1 ≤ 0) as Hn by (cbn; lia).
  assert (overlap_fraction 0 1 = Ok (overlap_r 0 1)) as Hr
    by (apply overlap_fraction_spec; lia).
  split_and!; [done|done|done|].
  by rewrite (empty_sweep_run (H := lab 0%Qc 0%Qc) Z2 nearest_Z2 0 1 true _ _ _
                HM Hn Hr eq_refl eq_refl).
Defined.

Lemma plot_with_voronoi_draws_witness :
  0 ≤ 1
  ∧ origin_index [(0%Qc, 0%Qc)] = Ok 0
  ∧ (plot_with_voronoi (H := lab 0%Qc 0%Qc) [(0%Qc, 0%Qc)] 2 0%Qc 1).2 = Ok tt.
Proof.
  assert (0 ≤ 1) as HM by lia.
  assert (origin_index [(0%Qc, 0%Qc)] = Ok 0) as Ho by (by vm_compute).
  split_and!; [done|done|].
  by rewrite (plot_with_voronoi_draws (H := lab 0%Qc 0%Qc) [(0%Qc, 0%Qc)] 2 1 0%Qc
                (square_voronoi [(0%Qc, 0%Qc)]) 0 0 [0; 1; 2; 3]
                (Q2Qc 0.5, Q2Qc 0.5)
                [(Q2Qc (-0.5), Q2Qc 0.5); (Q2Qc (-0.5), Q2Qc (-0.5));
                 (Q2Qc 0.5, Q2Qc (-0.5))]
                HM eq_refl Ho eq_refl eq_refl eq_refl).
Defined.
